(** * Heredity: exact inference over a gene/trait pedigree

    A shallow embedding of [heredity.py] and the properties of its
    evaluator ([joint_probability]), its enumeration loop ([main]), its
    accumulator ([update]) and its normaliser ([normalize]).

    Modelling conventions.
    - Python dictionaries are [gmap]s and Python sets are [gset]s.  A
      Python dictionary is iterated in the order in which its keys were
      inserted, a set of strings in an order that is not specified; the
      embedding iterates both in the order of [map_to_list] /
      [elements].  Over exact rationals no result depends on that order.
      In binary64 a product or a sum can depend on it in its last
      digits: what is stated there is either independent of the order or
      stated on an input for which [map_to_list] follows the rows of the
      file.
    - The arithmetic of the program is embedded twice, from the same
      source lines.  The module [Binary64] is the program as the
      interpreter runs it: every number is a binary64 floating point
      number and every [+], [-], [*], [/] rounds.  The definitions
      outside that module are the same program over exact rationals
      ([Qc]), that is, the formulas the program computes before any
      rounding; a property stated on them is a property of the program
      in exact arithmetic, and it is said so where it is stated.
      Everything that does not compute with probabilities (loading,
      subsets, the dictionaries of a hypothesis, the evidence test) is
      shared by the two.
    - A failed dictionary lookup raises [KeyError] in Python; it is the
      only exception the modelled code can raise and it is modelled by
      [None] in the [option] monad. *)

From Stdlib Require Import PrimFloat SpecFloat FloatOps.
From Stdlib Require Import QArith Qcanon.
From stdpp Require Import gmap strings list fin_maps fin_sets numbers.
From stdpp Require pretty.

Open Scope Qc_scope.

(* [set_solver] clears hypotheses that are already gone. *)
Set Warnings "-clear-no-such-hyp".
(* The decimal constants of the source are rounded to binary64. *)
Set Warnings "-inexact-float".

(** ** Data model *)

(** The keys [0], [1], [2] of the gene tables: the evaluator stores only
    these three numbers in its [genes] dictionary (lines 145-150). *)
Inductive gene_count := C0 | C1 | C2.

#[global] Instance gene_count_eq_dec : EqDecision gene_count.
Proof. solve_decision. Defined.

(** The table [PROBS] (lines 5-37). *)
Record probs := {
  probs_gene : gene_count → Qc;
  probs_trait : gene_count → bool → Qc;
  probs_mutation : Qc
}.

Definition PROBS : probs := {|
  probs_gene := λ c,
    match c with
    | C2 => Q2Qc 0.01
    | C1 => Q2Qc 0.03
    | C0 => Q2Qc 0.96
    end;
  probs_trait := λ c t,
    match c, t with
    | C2, true => Q2Qc 0.65
    | C2, false => Q2Qc 0.35
    | C1, true => Q2Qc 0.56
    | C1, false => Q2Qc 0.44
    | C0, true => Q2Qc 0.01
    | C0, false => Q2Qc 0.99
    end;
  probs_mutation := Q2Qc 0.01
|}.

(** One record of the [people] dictionary, as [load_data] builds it. *)
Record person_record := {
  person_name : string;
  person_mother : option string;
  person_father : option string;
  person_trait : option bool
}.

#[global] Instance person_record_eq_dec : EqDecision person_record.
Proof. solve_decision. Defined.

(** One row of the CSV file, as [csv.DictReader] yields it. *)
Record row := {
  row_name : string;
  row_mother : string;
  row_father : string;
  row_trait : string
}.

(** The inner dictionaries [{2: _, 1: _, 0: _}] and [{True: _, False: _}]
    of the posterior table, and one entry of that table (lines 48-58). *)
Record gene_dist := { gene_2 : Qc; gene_1 : Qc; gene_0 : Qc }.
Record trait_dist := { trait_True : Qc; trait_False : Qc }.
Record entry := { entry_gene : gene_dist; entry_trait : trait_dist }.

(** [d.values()], in insertion order of the keys. *)
Definition gene_values (g : gene_dist) : list Qc :=
  [gene_2 g; gene_1 g; gene_0 g].
Definition trait_values (t : trait_dist) : list Qc :=
  [trait_True t; trait_False t].

(** Python's [sum]: starts from [0] and adds from the left. *)
Definition py_sum (l : list Qc) : Qc := foldl Qcplus 0 l.

(** A hypothesis as the loops of [main] hand it to the evaluator. *)
Record hypothesis := {
  hyp_one_gene : gset string;
  hyp_two_genes : gset string;
  hyp_have_trait : gset string
}.

(** ** Loops *)

(** [for x in l: s = body(s, x)] where the body may raise. *)
Fixpoint for_each {A S : Type} (body : S → A → option S) (s : S)
    (l : list A) : option S :=
  match l with
  | [] => Some s
  | x :: l' => s' ← body s x; for_each body s' l'
  end.

(** [any(test(x) for x in l)]: stops at the first [True]. *)
Fixpoint py_any {A : Type} (test : A → option bool) (l : list A)
    : option bool :=
  match l with
  | [] => Some false
  | x :: l' => b ← test x; if b : bool then Some true else py_any test l'
  end.

(** The keys of a dictionary, for [for k in d]. *)
Definition keys {V : Type} (d : gmap string V) : list string :=
  (map_to_list d).*1.

(** ** [load_data] (lines 95-114) *)

Definition parse_parent (s : string) : option string :=
  if decide (s = "") then None else Some s.

Definition parse_trait (s : string) : option bool :=
  if decide (s = "1") then Some true
  else if decide (s = "0") then Some false
  else None.

Definition load_data (rows : list row) : gmap string person_record :=
  foldl (λ data r,
           let name := row_name r in
           <[name := {| person_name := name;
                        person_mother := parse_parent (row_mother r);
                        person_father := parse_parent (row_father r);
                        person_trait := parse_trait (row_trait r) |}]> data)
        ∅ rows.

(** ** [powerset] (lines 117-126) *)

(** [itertools.combinations(l, r)]: the [r]-element subsequences of [l],
    in lexicographic order of their positions. *)
Fixpoint combinations {A : Type} (l : list A) (r : nat) : list (list A) :=
  match r with
  | O => [[]]
  | S r' =>
      match l with
      | [] => []
      | x :: l' => (cons x <$> combinations l' r') ++ combinations l' r
      end
  end.

Definition powerset (s : gset string) : list (gset string) :=
  let s := elements s in
  list_to_set <$>
    concat ((λ r, combinations s r) <$> seq 0 (length s + 1)).

(** ** Reading and writing the entries of the posterior table *)

Definition get_gene (k : gene_count) (e : entry) : Qc :=
  match k with
  | C2 => gene_2 (entry_gene e)
  | C1 => gene_1 (entry_gene e)
  | C0 => gene_0 (entry_gene e)
  end.

Definition set_gene (k : gene_count) (v : Qc) (e : entry) : entry :=
  let g := entry_gene e in
  {| entry_gene :=
       match k with
       | C2 => {| gene_2 := v; gene_1 := gene_1 g; gene_0 := gene_0 g |}
       | C1 => {| gene_2 := gene_2 g; gene_1 := v; gene_0 := gene_0 g |}
       | C0 => {| gene_2 := gene_2 g; gene_1 := gene_1 g; gene_0 := v |}
       end;
     entry_trait := entry_trait e |}.

Definition get_trait (k : bool) (e : entry) : Qc :=
  if k then trait_True (entry_trait e) else trait_False (entry_trait e).

Definition set_trait (k : bool) (v : Qc) (e : entry) : entry :=
  let t := entry_trait e in
  {| entry_gene := entry_gene e;
     entry_trait :=
       if k then {| trait_True := v; trait_False := trait_False t |}
       else {| trait_True := trait_True t; trait_False := v |} |}.

(** [sum(probabilities[person]['gene'].values())] and the same for
    ['trait']. *)
Definition gene_total (e : entry) : Qc := py_sum (gene_values (entry_gene e)).
Definition trait_total (e : entry) : Qc :=
  py_sum (trait_values (entry_trait e)).

Section Heredity.

(** The global table [PROBS], made a parameter so that the properties of
    the evaluator can be stated for every mutation rate; the program is
    the instance at [PROBS]. *)
Variable model : probs.

(** ** [joint_probability] (lines 129-187) *)

(** Lines 142-154: the dictionaries [genes] and [trait]. *)
Definition parse_hypothesis (people : gmap string person_record)
    (one_gene two_genes have_trait : gset string)
    : gmap string gene_count * gmap string bool :=
  foldl (λ '(genes, trait) person,
           let genes :=
             if decide (person ∈ one_gene) then <[person := C1]> genes
             else if decide (person ∈ two_genes) then <[person := C2]> genes
             else <[person := C0]> genes in
           let trait :=
             if decide (person ∈ have_trait) then <[person := true]> trait
             else <[person := false]> trait in
           (genes, trait))
        (∅, ∅) (keys people).

(** Lines 167-172: the probability that a parent with [parent_genes]
    copies passes the gene on. *)
Definition p_parent (parent_genes : gene_count) : Qc :=
  match parent_genes with
  | C1 => Q2Qc 0.5 * (1 - probs_mutation model)
          + Q2Qc 0.5 * probs_mutation model
  | C2 => 1 - probs_mutation model
  | C0 => probs_mutation model
  end.

(** Lines 163-172: [genes[people[person][parent]]] for the father, then
    for the mother; an absent parent is the key [None], which is never
    in [genes]. *)
Definition p_parents (genes : gmap string gene_count) (rec : person_record)
    : option (Qc * Qc) :=
  father_genes ← person_father rec ≫= (genes !!.);
  mother_genes ← person_mother rec ≫= (genes !!.);
  Some (p_parent father_genes, p_parent mother_genes).

(** Lines 173-179. *)
Definition child_gene (g : gene_count) (father mother : Qc) : Qc :=
  match g with
  | C1 => father * (1 - mother) + mother * (1 - father)
  | C2 => father * mother
  | C0 => (1 - father) * (1 - mother)
  end.

(** Lines 163-179: [p_gene] of a person with parents. *)
Definition inherited_gene (genes : gmap string gene_count)
    (person : string) (rec : person_record) : option Qc :=
  '(father, mother) ← p_parents genes rec;
  g ← genes !! person;
  Some (child_gene g father mother).

(** Lines 158-182: the body of the second loop. *)
Definition person_p (genes : gmap string gene_count)
    (trait : gmap string bool) (person : string) (rec : person_record)
    : option Qc :=
  if decide (person_mother rec = None ∧ person_father rec = None) then
    g ← genes !! person;
    t ← trait !! person;
    let p_gene := probs_gene model g in
    let p_trait := probs_trait model g t in
    Some (p_gene * p_trait)
  else
    p_gene ← inherited_gene genes person rec;
    g ← genes !! person;
    t ← trait !! person;
    let p_trait := probs_trait model g t in
    Some (p_gene * p_trait).

Definition joint_probability (people : gmap string person_record)
    (one_gene two_genes have_trait : gset string) : option Qc :=
  let '(genes, trait) :=
    parse_hypothesis people one_gene two_genes have_trait in
  p_list ← for_each
    (λ (p_list : gmap string Qc) '(person, rec),
       p ← person_p genes trait person rec;
       Some (<[person := p]> p_list))
    ∅ (map_to_list people);
  Some (foldl (λ joint_p p, joint_p * p) 1 (map_to_list p_list).*2).

(** ** [update] (lines 190-213) *)

Definition update_entry (one_gene two_genes have_trait : gset string)
    (p : Qc) (person : string) (e : entry) : entry :=
  let e :=
    if decide (person ∈ one_gene) then set_gene C1 (get_gene C1 e + p) e
    else if decide (person ∈ two_genes) then
      set_gene C2 (get_gene C2 e + p) e
    else set_gene C0 (get_gene C0 e + p) e in
  if decide (person ∈ have_trait) then
    set_trait true (get_trait true e + p) e
  else set_trait false (get_trait false e + p) e.

Definition update (probabilities : gmap string entry)
    (one_gene two_genes have_trait : gset string) (p : Qc)
    : gmap string entry :=
  foldl (λ probabilities person,
           alter (update_entry one_gene two_genes have_trait p person)
                 person probabilities)
        probabilities (keys probabilities).

(** ** [normalize] (lines 215-241) *)

(** The body of the loop, on [probabilities[person]]; both [continue]s
    leave the rest of the entry as it is. *)
Definition normalize_entry (e : entry) : entry :=
  let gene_sum := gene_total e in
  if decide (gene_sum = 0) then e
  else
    let e := set_gene C1 (get_gene C1 e / gene_sum) e in
    let e := set_gene C2 (get_gene C2 e / gene_sum) e in
    let e := set_gene C0 (get_gene C0 e / gene_sum) e in
    let trait_sum := trait_total e in
    if decide (trait_sum = 0) then e
    else
      let e := set_trait true (get_trait true e / gene_sum) e in
      set_trait false (get_trait false e / gene_sum) e.

Definition normalize (probabilities : gmap string entry)
    : gmap string entry :=
  foldl (λ probabilities person, alter normalize_entry person probabilities)
        probabilities (keys probabilities).

(** ** [main] (lines 40-83, without the command line and the report) *)

Definition zero_entry : entry :=
  {| entry_gene := {| gene_2 := 0; gene_1 := 0; gene_0 := 0 |};
     entry_trait := {| trait_True := 0; trait_False := 0 |} |}.

(** Lines 47-60. *)
Definition initial (people : gmap string person_record) : gmap string entry :=
  (λ _, zero_entry) <$> people.

(** Lines 67-71. *)
Definition fails_evidence (people : gmap string person_record)
    (names have_trait : gset string) : option bool :=
  py_any (λ person,
            rec ← people !! person;
            Some (match person_trait rec with
                  | Some t =>
                      negb (eqb t (bool_decide (person ∈ have_trait)))
                  | None => false
                  end))
         (elements names).

(** Lines 62-80: the enumeration loops, calling the evaluator and the
    accumulator on every hypothesis. *)
Definition accumulate (people : gmap string person_record)
    : option (gmap string entry) :=
  let probabilities := initial people in
  let names := dom people in
  for_each
    (λ probabilities have_trait,
       fails ← fails_evidence people names have_trait;
       if fails : bool then Some probabilities
       else
         for_each
           (λ probabilities one_gene,
              for_each
                (λ probabilities two_genes,
                   p ← joint_probability people one_gene two_genes
                                         have_trait;
                   Some (update probabilities one_gene two_genes
                                have_trait p))
                probabilities (powerset (names ∖ one_gene)))
           probabilities (powerset names))
    probabilities (powerset names).

(** The hypotheses the same loops hand to the evaluator, in order. *)
Definition gene_hypotheses (names have_trait : gset string)
    : list hypothesis :=
  one_gene ← powerset names;
  two_genes ← powerset (names ∖ one_gene);
  [ {| hyp_one_gene := one_gene; hyp_two_genes := two_genes;
       hyp_have_trait := have_trait |} ].

(** The three loops of lines 64-77 without the call of line 79: the
    list of the hypotheses that [main] hands to the evaluator when no
    call raises, that is, on a well-formed pedigree.  On any other
    pedigree [main] stops with the error of its first call. *)
Definition enumerate (people : gmap string person_record)
    : option (list hypothesis) :=
  let names := dom people in
  for_each
    (λ hs have_trait,
       fails ← fails_evidence people names have_trait;
       if fails : bool then Some hs
       else Some (hs ++ gene_hypotheses names have_trait))
    [] (powerset names).

(** Lines 47-83: the table that [main] prints. *)
Definition posterior (people : gmap string person_record)
    : option (gmap string entry) :=
  probabilities ← accumulate people;
  Some (normalize probabilities).

Definition main (rows : list row) : option (gmap string entry) :=
  posterior (load_data rows).

End Heredity.

(** The pedigree of lines 245-247. *)
Definition test_people : gmap string person_record :=
  <["Lily" := {| person_name := "Lily"; person_mother := None;
                 person_father := None; person_trait := Some false |}]>
  (<["James" := {| person_name := "James"; person_mother := None;
                   person_father := None; person_trait := Some true |}]>
  (<["Harry" := {| person_name := "Harry"; person_mother := Some "Lily";
                   person_father := Some "James"; person_trait := None |}]>
   ∅)).

(** ** The program in binary64 arithmetic

    The same functions as the interpreter runs them: the numbers are
    binary64 floating point numbers ([PrimFloat.float]) and every
    operation rounds to nearest.  The integers [0] and [1] of lines
    50-56, 184 and of Python's [sum] are converted without error as soon
    as they meet a float, so they are written as the floats [0] and [1];
    [x == 0] on a float is the comparison [PrimFloat.eqb].  The table
    [PROBS] is the global of lines 5-37. *)
Module Binary64.

Local Open Scope float_scope.

(** The table [PROBS] (lines 5-37): each decimal constant is the nearest
    binary64 number. *)
Record probs := {
  probs_gene : gene_count → float;
  probs_trait : gene_count → bool → float;
  probs_mutation : float
}.

Definition PROBS : probs := {|
  probs_gene := λ c,
    match c with
    | C2 => 0.01
    | C1 => 0.03
    | C0 => 0.96
    end;
  probs_trait := λ c t,
    match c, t with
    | C2, true => 0.65
    | C2, false => 0.35
    | C1, true => 0.56
    | C1, false => 0.44
    | C0, true => 0.01
    | C0, false => 0.99
    end;
  probs_mutation := 0.01
|}.

(** The inner dictionaries of the posterior table (lines 48-58). *)
Record gene_dist := { gene_2 : float; gene_1 : float; gene_0 : float }.
Record trait_dist := { trait_True : float; trait_False : float }.
Record entry := { entry_gene : gene_dist; entry_trait : trait_dist }.

(** [d.values()], in insertion order of the keys. *)
Definition gene_values (g : gene_dist) : list float :=
  [gene_2 g; gene_1 g; gene_0 g].
Definition trait_values (t : trait_dist) : list float :=
  [trait_True t; trait_False t].

(** Python's [sum]: starts from [0] and adds from the left, rounding
    after each addition. *)
Definition py_sum (l : list float) : float := foldl PrimFloat.add 0 l.

Definition get_gene (k : gene_count) (e : entry) : float :=
  match k with
  | C2 => gene_2 (entry_gene e)
  | C1 => gene_1 (entry_gene e)
  | C0 => gene_0 (entry_gene e)
  end.

Definition set_gene (k : gene_count) (v : float) (e : entry) : entry :=
  let g := entry_gene e in
  {| entry_gene :=
       match k with
       | C2 => {| gene_2 := v; gene_1 := gene_1 g; gene_0 := gene_0 g |}
       | C1 => {| gene_2 := gene_2 g; gene_1 := v; gene_0 := gene_0 g |}
       | C0 => {| gene_2 := gene_2 g; gene_1 := gene_1 g; gene_0 := v |}
       end;
     entry_trait := entry_trait e |}.

Definition get_trait (k : bool) (e : entry) : float :=
  if k then trait_True (entry_trait e) else trait_False (entry_trait e).

Definition set_trait (k : bool) (v : float) (e : entry) : entry :=
  let t := entry_trait e in
  {| entry_gene := entry_gene e;
     entry_trait :=
       if k then {| trait_True := v; trait_False := trait_False t |}
       else {| trait_True := trait_True t; trait_False := v |} |}.

(** [sum(probabilities[person]['gene'].values())] and the same for
    ['trait']. *)
Definition gene_total (e : entry) : float :=
  py_sum (gene_values (entry_gene e)).
Definition trait_total (e : entry) : float :=
  py_sum (trait_values (entry_trait e)).

(** *** [joint_probability] (lines 129-187) *)

(** Lines 167-172. *)
Definition p_parent (parent_genes : gene_count) : float :=
  match parent_genes with
  | C1 => 0.5 * (1 - probs_mutation PROBS) + 0.5 * probs_mutation PROBS
  | C2 => 1 - probs_mutation PROBS
  | C0 => probs_mutation PROBS
  end.

(** Lines 163-172: the father first, then the mother. *)
Definition p_parents (genes : gmap string gene_count) (rec : person_record)
    : option (float * float) :=
  father_genes ← person_father rec ≫= (genes !!.);
  mother_genes ← person_mother rec ≫= (genes !!.);
  Some (p_parent father_genes, p_parent mother_genes).

(** Lines 173-179. *)
Definition child_gene (g : gene_count) (father mother : float) : float :=
  match g with
  | C1 => father * (1 - mother) + mother * (1 - father)
  | C2 => father * mother
  | C0 => (1 - father) * (1 - mother)
  end.

(** Lines 163-179. *)
Definition inherited_gene (genes : gmap string gene_count)
    (person : string) (rec : person_record) : option float :=
  '(father, mother) ← p_parents genes rec;
  g ← genes !! person;
  Some (child_gene g father mother).

(** Lines 158-182: the body of the second loop. *)
Definition person_p (genes : gmap string gene_count)
    (trait : gmap string bool) (person : string) (rec : person_record)
    : option float :=
  if decide (person_mother rec = None ∧ person_father rec = None) then
    g ← genes !! person;
    t ← trait !! person;
    let p_gene := probs_gene PROBS g in
    let p_trait := probs_trait PROBS g t in
    Some (p_gene * p_trait)
  else
    p_gene ← inherited_gene genes person rec;
    g ← genes !! person;
    t ← trait !! person;
    let p_trait := probs_trait PROBS g t in
    Some (p_gene * p_trait).

(** The dictionaries [genes] and [trait] of lines 142-154 hold no number:
    they are those of [parse_hypothesis]. *)
Definition joint_probability (people : gmap string person_record)
    (one_gene two_genes have_trait : gset string) : option float :=
  let '(genes, trait) :=
    parse_hypothesis people one_gene two_genes have_trait in
  p_list ← for_each
    (λ (p_list : gmap string float) '(person, rec),
       p ← person_p genes trait person rec;
       Some (<[person := p]> p_list))
    ∅ (map_to_list people);
  Some (foldl (λ joint_p p, joint_p * p) 1 (map_to_list p_list).*2).

(** *** [update] (lines 190-213) *)

Definition update_entry (one_gene two_genes have_trait : gset string)
    (p : float) (person : string) (e : entry) : entry :=
  let e :=
    if decide (person ∈ one_gene) then set_gene C1 (get_gene C1 e + p) e
    else if decide (person ∈ two_genes) then
      set_gene C2 (get_gene C2 e + p) e
    else set_gene C0 (get_gene C0 e + p) e in
  if decide (person ∈ have_trait) then
    set_trait true (get_trait true e + p) e
  else set_trait false (get_trait false e + p) e.

Definition update (probabilities : gmap string entry)
    (one_gene two_genes have_trait : gset string) (p : float)
    : gmap string entry :=
  foldl (λ probabilities person,
           alter (update_entry one_gene two_genes have_trait p person)
                 person probabilities)
        probabilities (keys probabilities).

(** *** [normalize] (lines 215-241) *)

Definition normalize_entry (e : entry) : entry :=
  let gene_sum := gene_total e in
  if gene_sum =? 0 then e
  else
    let e := set_gene C1 (get_gene C1 e / gene_sum) e in
    let e := set_gene C2 (get_gene C2 e / gene_sum) e in
    let e := set_gene C0 (get_gene C0 e / gene_sum) e in
    let trait_sum := trait_total e in
    if trait_sum =? 0 then e
    else
      let e := set_trait true (get_trait true e / gene_sum) e in
      set_trait false (get_trait false e / gene_sum) e.

Definition normalize (probabilities : gmap string entry)
    : gmap string entry :=
  foldl (λ probabilities person, alter normalize_entry person probabilities)
        probabilities (keys probabilities).

(** *** [main] (lines 40-83, without the command line and the report) *)

Definition zero_entry : entry :=
  {| entry_gene := {| gene_2 := 0; gene_1 := 0; gene_0 := 0 |};
     entry_trait := {| trait_True := 0; trait_False := 0 |} |}.

(** Lines 47-60. *)
Definition initial (people : gmap string person_record) : gmap string entry :=
  (λ _, zero_entry) <$> people.

(** Lines 62-80. *)
Definition accumulate (people : gmap string person_record)
    : option (gmap string entry) :=
  let probabilities := initial people in
  let names := dom people in
  for_each
    (λ probabilities have_trait,
       fails ← fails_evidence people names have_trait;
       if fails : bool then Some probabilities
       else
         for_each
           (λ probabilities one_gene,
              for_each
                (λ probabilities two_genes,
                   p ← joint_probability people one_gene two_genes
                                         have_trait;
                   Some (update probabilities one_gene two_genes
                                have_trait p))
                probabilities (powerset (names ∖ one_gene)))
           probabilities (powerset names))
    probabilities (powerset names).

(** Lines 47-83: the table that [main] prints. *)
Definition posterior (people : gmap string person_record)
    : option (gmap string entry) :=
  probabilities ← accumulate people;
  Some (normalize probabilities).

Definition main (rows : list row) : option (gmap string entry) :=
  posterior (load_data rows).

(** *** Definitions used to state the properties *)

(** One turn of the innermost loop of [main] (lines 79-80). *)
Definition evaluate_and_update (people : gmap string person_record)
    (probabilities : gmap string entry) (h : hypothesis)
    : option (gmap string entry) :=
  p ← joint_probability people (hyp_one_gene h) (hyp_two_genes h)
         (hyp_have_trait h);
  Some (update probabilities (hyp_one_gene h) (hyp_two_genes h)
          (hyp_have_trait h) p).

(** The accumulator applied to a sequence of hypotheses and their
    probabilities. *)
Definition updates (probabilities : gmap string entry)
    (calls : list (hypothesis * float)) : gmap string entry :=
  foldl (λ probabilities '(h, p),
           update probabilities (hyp_one_gene h) (hyp_two_genes h)
                  (hyp_have_trait h) p)
        probabilities calls.

(** The values the evaluator returns for the hypotheses that the loops
    of [main] hand to it, in order. *)
Definition joint_probabilities (people : gmap string person_record)
    : option (list float) :=
  hs ← enumerate people;
  mapM (λ h, joint_probability people (hyp_one_gene h) (hyp_two_genes h)
               (hyp_have_trait h)) hs.

(** The rational number that a finite binary64 number stands for:
    mantissa times a power of two. *)
Definition exact_value (x : float) : option Q :=
  match Prim2SF x with
  | S754_zero _ => Some 0%Q
  | S754_finite s m e =>
      let v := (inject_Z (Z.pos m) * Qpower 2 e)%Q in
      Some (if s then Qopp v else v)
  | _ => None
  end.

(** The sum of a list of binary64 numbers without any rounding. *)
Definition exact_sum (l : list float) : option Q :=
  qs ← mapM exact_value l;
  Some (Qred (foldr Qplus 0%Q qs)).

End Binary64.

(** A file with the single row [A,,,]: one individual, no recorded
    parents, trait not observed. *)
Definition one_person_rows : list row :=
  [ {| row_name := "A"; row_mother := ""; row_father := "";
       row_trait := "" |} ].

(** [n] individuals without recorded parents and without observed
    trait, named ["0"], ["1"], ... *)
Definition crowd (n : nat) : gmap string person_record :=
  list_to_map
    ((λ i : nat,
        let name := pretty.pretty i in
        (name, {| person_name := name; person_mother := None;
                  person_father := None; person_trait := None |}))
       <$> seq 0 n).

(** A file with two individuals without recorded parents and their
    child, no trait being observed.  The dictionary of [load_data] is
    iterated in the order of the rows, which is here the order of
    [map_to_list]. *)
Definition three_person_rows : list row :=
  [ {| row_name := "James"; row_mother := ""; row_father := "";
       row_trait := "" |};
    {| row_name := "Lily"; row_mother := ""; row_father := "";
       row_trait := "" |};
    {| row_name := "Harry"; row_mother := "Lily"; row_father := "James";
       row_trait := "" |} ].

(** ** Definitions used to state the properties *)

(** The gene count a hypothesis gives a person; [one_gene] is looked at
    first. *)
Definition hyp_gene (one_gene two_genes : gset string) (person : string)
    : gene_count :=
  if decide (person ∈ one_gene) then C1
  else if decide (person ∈ two_genes) then C2
  else C0.

(** The trait value a hypothesis gives a person. *)
Definition hyp_trait (have_trait : gset string) (person : string) : bool :=
  bool_decide (person ∈ have_trait).

(** [powerset] on the list of the elements. *)
Definition all_combinations {A : Type} (l : list A) : list (list A) :=
  concat ((λ r, combinations l r) <$> seq 0 (length l + 1)).

Definition powerset_list (l : list string) : list (gset string) :=
  list_to_set <$> all_combinations l.

(** Products and sums of a list of probabilities. *)
Definition Qc_prod (l : list Qc) : Qc := foldr Qcmult 1 l.
Definition Qc_sum (l : list Qc) : Qc := foldr Qcplus 0 l.
Definition sum_over {A : Type} (l : list A) (f : A → Qc) : Qc :=
  Qc_sum (f <$> l).

(** The sum over the two gene loops of [main]: [one_gene] over the
    subsets of [names], [two_genes] over the subsets of the rest. *)
Definition gene_sum (names : gset string)
    (f : gset string → gset string → Qc) : Qc :=
  sum_over (powerset names) (λ one_gene,
    sum_over (powerset (names ∖ one_gene)) (λ two_genes,
      f one_gene two_genes)).

(** A record without recorded parents. *)
Definition is_root (rec : person_record) : Prop :=
  person_mother rec = None ∧ person_father rec = None.

#[global] Instance is_root_dec rec : Decision (is_root rec).
Proof. unfold is_root. apply _. Defined.

(** A record whose parents are both recorded and are in [names]. *)
Definition has_parents (names : gset string) (rec : person_record) : Prop :=
  match person_mother rec, person_father rec with
  | Some mo, Some fa => mo ∈ names ∧ fa ∈ names
  | _, _ => False
  end.

#[global] Instance has_parents_dec names rec : Decision (has_parents names rec).
Proof.
  unfold has_parents.
  destruct (person_mother rec), (person_father rec); apply _.
Defined.

(** Well-formed pedigree: every record is a root or has both parents in
    the pedigree. *)
Definition well_formed (people : gmap string person_record) : Prop :=
  map_Forall (λ _ rec, is_root rec ∨ has_parents (dom people) rec) people.

#[global] Instance well_formed_dec people : Decision (well_formed people).
Proof. unfold well_formed. apply _. Defined.

(** A record that makes the pedigree invalid for the evaluator: it is
    not a root and one of its parent references is absent or is not a
    name of the pedigree. *)
Definition bad_parents (people : gmap string person_record)
    (rec : person_record) : Prop :=
  ¬ is_root rec ∧ ¬ has_parents (dom people) rec.

(** The pedigree can be built one person at a time, each one after its
    parents: references resolve and there is no cycle. *)
Inductive pedigree_ok : gmap string person_record → Prop :=
  | pedigree_empty : pedigree_ok ∅
  | pedigree_insert people person rec :
      pedigree_ok people →
      people !! person = None →
      is_root rec ∨ has_parents (dom people) rec →
      pedigree_ok (<[person := rec]> people).

(** No trait is observed. *)
Definition no_evidence (people : gmap string person_record) : Prop :=
  ∀ person rec, people !! person = Some rec → person_trait rec = None.

(** A trait set agrees with the observed traits: an individual observed
    with the trait is in the set, one observed without it is not. *)
Definition agrees_on (rec : person_record) (person : string)
    (have_trait : gset string) : Prop :=
  match person_trait rec with
  | Some t => person ∈ have_trait ↔ t = true
  | None => True
  end.

Definition agrees (people : gmap string person_record)
    (have_trait : gset string) : Prop :=
  map_Forall (λ person rec, agrees_on rec person have_trait) people.

#[global] Instance agrees_on_dec rec person have_trait :
  Decision (agrees_on rec person have_trait).
Proof. unfold agrees_on. destruct (person_trait rec); apply _. Defined.

#[global] Instance agrees_dec people have_trait :
  Decision (agrees people have_trait).
Proof. unfold agrees. apply _. Defined.

(** The test of lines 68-69 on one person. *)
Definition contradicts (rec : person_record) (person : string)
    (have_trait : gset string) : bool :=
  match person_trait rec with
  | Some t => negb (eqb t (bool_decide (person ∈ have_trait)))
  | None => false
  end.

(** The conditions the specification calls [InvalidPedigree], on the rows
    of the input. *)
Definition row_names (rows : list row) : list string := row_name <$> rows.

Definition half_recorded (r : row) : Prop :=
  (row_mother r = "" ∧ row_father r ≠ "") ∨
  (row_mother r ≠ "" ∧ row_father r = "").

Definition unresolved (rows : list row) (r : row) : Prop :=
  (row_mother r ≠ "" ∧ row_mother r ∉ row_names rows) ∨
  (row_father r ≠ "" ∧ row_father r ∉ row_names rows).

Definition invalid_pedigree (rows : list row) : Prop :=
  (∃ r, r ∈ rows ∧ half_recorded r) ∨
  (∃ r, r ∈ rows ∧ unresolved rows r) ∨
  ¬ NoDup (row_names rows).

(** *** The evaluator as the specification describes it

    These definitions follow the words of the specification (section 4.2),
    not the code; the theorems compare them with [joint_probability]. *)

Section Specification.

Variable model : probs.

Definition genePrior (count : gene_count) : Qc := probs_gene model count.
Definition traitGivenGene (count : gene_count) (t : bool) : Qc :=
  probs_trait model count t.
Definition mutationRate : Qc := probs_mutation model.

(** The probability that a parent passes the variant copy on. *)
Definition transmits (parent_count : gene_count) : Qc :=
  match parent_count with
  | C2 => 1 - mutationRate
  | C1 => Q2Qc 0.5
  | C0 => mutationRate
  end.

(** The probability of the child's count given the counts of the
    parents. *)
Definition parent_derived (father_count mother_count count : gene_count)
    : Qc :=
  let pf := transmits father_count in
  let pm := transmits mother_count in
  match count with
  | C2 => pf * pm
  | C0 => (1 - pf) * (1 - pm)
  | C1 => pf * (1 - pm) + pm * (1 - pf)
  end.

(** The factor of one individual under a hypothesis given by a gene
    count and a trait value for every name. *)
Definition factor (count : string → gene_count) (t : string → bool)
    (person : string) (rec : person_record) : Qc :=
  match person_mother rec, person_father rec with
  | None, None =>
      genePrior (count person) * traitGivenGene (count person) (t person)
  | Some mo, Some fa =>
      parent_derived (count fa) (count mo) (count person)
      * traitGivenGene (count person) (t person)
  | _, _ => 0
  end.

(** The product of the factors of all individuals. *)
Definition joint (people : gmap string person_record)
    (count : string → gene_count) (t : string → bool) : Qc :=
  Qc_prod ((λ '(person, rec), factor count t person rec)
             <$> map_to_list people).

(** The sum of [joint_probability] over the hypotheses that [main]
    enumerates. *)
Definition total_mass (people : gmap string person_record) : option Qc :=
  hs ← enumerate people;
  ps ← mapM (λ h, joint_probability model people (hyp_one_gene h)
                    (hyp_two_genes h) (hyp_have_trait h)) hs;
  Some (Qc_sum ps).

(** The model is a family of probability distributions. *)
Definition model_ok : Prop :=
  genePrior C0 + genePrior C1 + genePrior C2 = 1 ∧
  ∀ c, traitGivenGene c true + traitGivenGene c false = 1.

End Specification.

(** One turn of the innermost loop of [main] (lines 79-80). *)
Definition evaluate_and_update (model : probs)
    (people : gmap string person_record) (probabilities : gmap string entry)
    (h : hypothesis) : option (gmap string entry) :=
  p ← joint_probability model people (hyp_one_gene h) (hyp_two_genes h)
         (hyp_have_trait h);
  Some (update probabilities (hyp_one_gene h) (hyp_two_genes h)
          (hyp_have_trait h) p).

(** The trait sets that pass the test of lines 67-73. *)
Definition surviving (people : gmap string person_record)
    : list (gset string) :=
  filter (agrees people) (powerset (dom people)).

(** The accumulator applied to a sequence of hypotheses and their
    probabilities. *)
Definition updates (probabilities : gmap string entry)
    (calls : list (hypothesis * Qc)) : gmap string entry :=
  foldl (λ probabilities '(h, p),
           update probabilities (hyp_one_gene h) (hyp_two_genes h)
                  (hyp_have_trait h) p)
        probabilities calls.

#[global] Instance gene_dist_eq_dec : EqDecision gene_dist.
Proof. solve_decision. Defined.
#[global] Instance trait_dist_eq_dec : EqDecision trait_dist.
Proof. solve_decision. Defined.
#[global] Instance entry_eq_dec : EqDecision entry.
Proof. solve_decision. Defined.

(** ** Definitions used to state further properties of the code *)

(** The record that [load_data] stores for a row (lines 107-113). *)
Definition row_record (r : row) : person_record :=
  {| person_name := row_name r;
     person_mother := parse_parent (row_mother r);
     person_father := parse_parent (row_father r);
     person_trait := parse_trait (row_trait r) |}.

(** The rows of a given name, in the order of the file. *)
Definition rows_named (k : string) (rows : list row) : list row :=
  filter (λ r, row_name r = k) rows.

(** The constraint that the docstring of [load_data] puts on a row:
    mother and father are both blank, or both are names of the file. *)
Definition row_ok (rows : list row) (r : row) : Prop :=
  (row_mother r = "" ∧ row_father r = "") ∨
  (row_mother r ≠ "" ∧ row_father r ≠ "" ∧
   row_mother r ∈ row_names rows ∧ row_father r ∈ row_names rows).

(** A table whose probabilities are all strictly positive, with a
    mutation rate strictly between 0 and 1. *)
Definition model_positive (model : probs) : Prop :=
  (∀ c, 0 < probs_gene model c) ∧
  (∀ c t, 0 < probs_trait model c t) ∧
  0 < probs_mutation model ∧ probs_mutation model < 1.

(** The joint probability of a hypothesis under the specification's
    product. *)
Definition hyp_joint (model : probs) (people : gmap string person_record)
    (h : hypothesis) : Qc :=
  joint model people (hyp_gene (hyp_one_gene h) (hyp_two_genes h))
    (hyp_trait (hyp_have_trait h)).

(** The mass of the hypotheses of [hs] that give [person] the count [c],
    and of those that give it the trait value [t]. *)
Definition gene_mass (model : probs) (people : gmap string person_record)
    (hs : list hypothesis) (person : string) (c : gene_count) : Qc :=
  sum_over hs (λ h,
    if decide (hyp_gene (hyp_one_gene h) (hyp_two_genes h) person = c)
    then hyp_joint model people h else 0).

Definition trait_mass (model : probs) (people : gmap string person_record)
    (hs : list hypothesis) (person : string) (t : bool) : Qc :=
  sum_over hs (λ h,
    if decide (hyp_trait (hyp_have_trait h) person = t)
    then hyp_joint model people h else 0).

(** Two hypotheses that treat every name other than [x] alike. *)
Definition same_off (x : string) (G1 G2 T G1' G2' T' : gset string) : Prop :=
  ∀ k, k ≠ x →
    (k ∈ G1' ↔ k ∈ G1) ∧ (k ∈ G2' ↔ k ∈ G2) ∧ (k ∈ T' ↔ k ∈ T).

(** A probability: strictly positive and at most 1. *)
Definition is_probability (p : Qc) : Prop := 0 < p ∧ p ≤ 1.

(** * Properties *)

(** ** Loops over the keys of a dictionary *)

Lemma NoDup_keys {V} (d : gmap string V) : NoDup (keys d).
Proof. apply NoDup_fst_map_to_list. Qed.

Lemma elem_of_keys {V} (d : gmap string V) k : k ∈ keys d ↔ is_Some (d !! k).
Proof.
  unfold keys. rewrite list_elem_of_fmap. split.
  - intros [[k' v] [-> Hin]]. apply elem_of_map_to_list in Hin. by exists v.
  - intros [v Hv]. exists (k, v). split; [done|]. by apply elem_of_map_to_list.
Qed.

(** A loop that rewrites the entry of each key of [l] in place. *)
Lemma foldl_alter_lookup {V} (f : string → V → V) (l : list string)
    (d : gmap string V) k :
  NoDup l →
  foldl (λ d k, alter (f k) k d) d l !! k
  = if decide (k ∈ l) then f k <$> d !! k else d !! k.
Proof.
  revert d. induction l as [|x l IH]; intros d Hnd; cbn [foldl].
  - rewrite decide_False; [done|]. apply not_elem_of_nil.
  - apply list.NoDup_cons in Hnd as [Hx Hnd]. rewrite IH by done.
    destruct (decide (k = x)) as [->|Hne].
    + rewrite (decide_False _ _ Hx), lookup_alter_eq.
      rewrite decide_True; [done|]. by apply elem_of_cons; left.
    + rewrite lookup_alter_ne by done.
      destruct (decide (k ∈ l)) as [Hl|Hl].
      * rewrite decide_True; [done|]. by apply elem_of_cons; right.
      * rewrite decide_False; [done|]. intros [?|?]%elem_of_cons; done.
Qed.

Lemma for_all_keys_lookup {V} (f : string → V → V) (d : gmap string V) k :
  foldl (λ d k, alter (f k) k d) d (keys d) !! k = f k <$> d !! k.
Proof.
  rewrite foldl_alter_lookup by apply NoDup_keys.
  destruct (decide (k ∈ keys d)) as [|Hk]; [done|].
  rewrite elem_of_keys, <- eq_None_not_Some in Hk. by rewrite Hk.
Qed.

Lemma update_lookup probabilities one_gene two_genes have_trait p person :
  update probabilities one_gene two_genes have_trait p !! person
  = update_entry one_gene two_genes have_trait p person
      <$> probabilities !! person.
Proof. apply for_all_keys_lookup. Qed.

Lemma normalize_lookup probabilities person :
  normalize probabilities !! person
  = normalize_entry <$> probabilities !! person.
Proof. apply (for_all_keys_lookup (λ _, normalize_entry)). Qed.

(** ** Arithmetic of the entries *)

Lemma gene_total_unfold e :
  gene_total e = get_gene C2 e + get_gene C1 e + get_gene C0 e.
Proof.
  unfold gene_total, py_sum, gene_values, get_gene. cbn [foldl]. ring.
Qed.

Lemma trait_total_unfold e :
  trait_total e = get_trait true e + get_trait false e.
Proof.
  unfold trait_total, py_sum, trait_values, get_trait. cbn [foldl]. ring.
Qed.

Lemma update_entry_gene_total one_gene two_genes have_trait p person e :
  gene_total (update_entry one_gene two_genes have_trait p person e)
  = gene_total e + p.
Proof.
  rewrite !gene_total_unfold. unfold update_entry.
  repeat case_decide; cbn; ring.
Qed.

Lemma update_entry_trait_total one_gene two_genes have_trait p person e :
  trait_total (update_entry one_gene two_genes have_trait p person e)
  = trait_total e + p.
Proof.
  rewrite !trait_total_unfold. unfold update_entry.
  repeat case_decide; cbn; ring.
Qed.

Lemma updates_balanced probabilities calls :
  map_Forall (λ _ e, gene_total e = trait_total e) probabilities →
  map_Forall (λ _ e, gene_total e = trait_total e)
             (updates probabilities calls).
Proof.
  revert probabilities.
  induction calls as [|[h p] calls IH]; intros probabilities Hinv; [done|].
  apply IH. intros person e. rewrite update_lookup.
  destruct (probabilities !! person) as [e0|] eqn:He0; [|done].
  intros [= <-].
  rewrite update_entry_gene_total, update_entry_trait_total.
  by rewrite (Hinv person e0 He0).
Qed.

(** C2. Over exact rationals: starting from the all-zero table, after
    any sequence of calls of [update], every person's three gene buckets
    and two trait buckets have the same sum.  (In binary64 the two sums
    are rounded separately and can differ in the last place.) *)
Theorem accumulation_keeps_sums_equal (people : gmap string person_record)
    (calls : list (hypothesis * Qc)) (person : string) (e : entry) :
  updates (initial people) calls !! person = Some e →
  gene_total e = trait_total e.
Proof.
  apply (updates_balanced (initial people) calls).
  intros k e0. unfold initial. rewrite lookup_fmap.
  destruct (people !! k); [|done]. by intros [= <-].
Qed.

Lemma accumulation_keeps_sums_equal_witness :
  let people : gmap string person_record :=
    {[ "A" := {| person_name := "A"; person_mother := None;
                 person_father := None; person_trait := None |} ]} in
  let h := {| hyp_one_gene := {["A"]}; hyp_two_genes := ∅;
              hyp_have_trait := ∅ |} in
  let e := {| entry_gene := {| gene_2 := 0; gene_1 := 0 + Q2Qc 0.5;
                               gene_0 := 0 |};
              entry_trait := {| trait_True := 0;
                                trait_False := 0 + Q2Qc 0.5 |} |} in
  updates (initial people) [(h, Q2Qc 0.5)] !! "A" = Some e ∧
  gene_total e = trait_total e.
Proof.
  intros people h e.
  assert (updates (initial people) [(h, Q2Qc 0.5)] !! "A" = Some e) as H.
  { vm_compute. reflexivity. }
  split; [exact H|].
  exact (accumulation_keeps_sums_equal people [(h, Q2Qc 0.5)] "A" e H).
Defined.

(** C2, in binary64.  The six updates that [main] performs for the file
    with the single row [A,,,] leave the gene buckets of [A] with the sum
    [1.0] and the trait buckets with the sum [0.9999999999999999]. *)
Lemma sums_differ_after_updates :
  let people := load_data one_person_rows in
  let hyp o t h := {| hyp_one_gene := o; hyp_two_genes := t;
                      hyp_have_trait := h |} in
  let calls : list (hypothesis * float) :=
    [ (hyp ∅ ∅ ∅, 0.96 * 0.99); (hyp ∅ {["A"]} ∅, 0.01 * 0.35);
      (hyp {["A"]} ∅ ∅, 0.03 * 0.44); (hyp ∅ ∅ {["A"]}, 0.96 * 0.01);
      (hyp ∅ {["A"]} {["A"]}, 0.01 * 0.65);
      (hyp {["A"]} ∅ {["A"]}, 0.03 * 0.56) ]%float in
  ∃ e,
    Binary64.updates (Binary64.initial people) calls !! "A" = Some e ∧
    Binary64.accumulate people ≫= (.!! "A") = Some e ∧
    Binary64.gene_total e = 1%float ∧
    Binary64.trait_total e = 0.9999999999999999%float ∧
    Binary64.gene_total e ≠ Binary64.trait_total e.
Proof.
  intros people hyp calls. eexists. split; [vm_compute; reflexivity|].
  split; [vm_compute; reflexivity|].
  split; [vm_compute; reflexivity|]. split; [vm_compute; reflexivity|].
  intros H. apply (f_equal (λ x, PrimFloat.eqb x 1%float)) in H.
  vm_compute in H. discriminate H.
Qed.

(** ** The normaliser *)

Lemma normalize_entry_gene_zero e :
  gene_total e = 0 → normalize_entry e = e.
Proof. intros H. unfold normalize_entry. by rewrite decide_True. Qed.

(** With a non-zero gene total the gene distribution is divided by its
    own total. *)
Lemma normalize_entry_gene e k :
  gene_total e ≠ 0 →
  get_gene k (normalize_entry e) = get_gene k e / gene_total e.
Proof.
  intros H. unfold normalize_entry. rewrite decide_False by done.
  case_decide; destruct k; reflexivity.
Qed.

Lemma normalize_entry_gene_total e :
  gene_total e ≠ 0 → gene_total (normalize_entry e) = 1.
Proof.
  intros H. rewrite gene_total_unfold, !normalize_entry_gene by done.
  rewrite (gene_total_unfold e) in *. by field.
Qed.

(** The trait distribution is divided by the gene total, provided neither
    total is zero; otherwise it is left as it is. *)
Lemma normalize_entry_trait e k :
  get_trait k (normalize_entry e)
  = if decide (gene_total e = 0) then get_trait k e
    else if decide (trait_total e = 0) then get_trait k e
    else get_trait k e / gene_total e.
Proof.
  unfold normalize_entry. case_decide; [done|].
  change (trait_total (set_gene C0 _ _)) with (trait_total e).
  case_decide; destruct k; reflexivity.
Qed.

(** C1, on the code. A table whose gene total is 1 and whose trait total
    is 2: [normalize] leaves the trait distribution at [1, 1], which sums
    to 2, because it divides by the gene total. A table whose gene total is
    0 and whose trait total is 2: the trait distribution is not touched
    either. *)
Theorem normalize_uses_gene_total_for_trait :
  let e1 := {| entry_gene := {| gene_2 := 0; gene_1 := 0; gene_0 := 1 |};
               entry_trait := {| trait_True := 1; trait_False := 1 |} |} in
  let e2 := {| entry_gene := {| gene_2 := 0; gene_1 := 0; gene_0 := 0 |};
               entry_trait := {| trait_True := 1; trait_False := 1 |} |} in
  normalize {[ "A" := e1 ]} = {[ "A" := e1 ]} ∧
  normalize {[ "A" := e2 ]} = {[ "A" := e2 ]} ∧
  trait_total e1 ≠ 1 ∧ trait_total e2 ≠ 1 ∧
  gene_total e1 ≠ 0 ∧ trait_total e1 ≠ 0 ∧ trait_total e2 ≠ 0.
Proof.
  intros e1 e2.
  repeat split; try (apply (bool_decide_unpack _); vm_compute; exact I).
Qed.

(** ** The dictionaries [genes] and [trait] of the evaluator *)

Lemma parse_hypothesis_step (one_gene two_genes have_trait : gset string)
    (genes : gmap string gene_count) (trait : gmap string bool)
    (person : string) :
  (let genes :=
     if decide (person ∈ one_gene) then <[person := C1]> genes
     else if decide (person ∈ two_genes) then <[person := C2]> genes
     else <[person := C0]> genes in
   let trait :=
     if decide (person ∈ have_trait) then <[person := true]> trait
     else <[person := false]> trait in
   (genes, trait))
  = (<[person := hyp_gene one_gene two_genes person]> genes,
     <[person := hyp_trait have_trait person]> trait).
Proof.
  unfold hyp_gene, hyp_trait. cbn zeta.
  destruct (decide (person ∈ have_trait)) as [Ht|Ht];
    [rewrite (bool_decide_eq_true_2 _ Ht)
    |rewrite (bool_decide_eq_false_2 _ Ht)];
    repeat case_decide; reflexivity.
Qed.

Lemma parse_hypothesis_lookup people one_gene two_genes have_trait person :
  (parse_hypothesis people one_gene two_genes have_trait).1 !! person
  = (λ _, hyp_gene one_gene two_genes person) <$> people !! person ∧
  (parse_hypothesis people one_gene two_genes have_trait).2 !! person
  = (λ _, hyp_trait have_trait person) <$> people !! person.
Proof.
  unfold parse_hypothesis.
  pose proof (elem_of_keys people person) as Hk.
  assert (∀ (l : list string) (g : gmap string gene_count)
            (t : gmap string bool),
    let r := foldl (λ '(genes, trait) person,
               let genes :=
                 if decide (person ∈ one_gene) then <[person := C1]> genes
                 else if decide (person ∈ two_genes)
                      then <[person := C2]> genes
                 else <[person := C0]> genes in
               let trait :=
                 if decide (person ∈ have_trait)
                 then <[person := true]> trait
                 else <[person := false]> trait in
               (genes, trait)) (g, t) l in
    r.1 !! person = (if decide (person ∈ l)
                     then Some (hyp_gene one_gene two_genes person)
                     else g !! person) ∧
    r.2 !! person = (if decide (person ∈ l)
                     then Some (hyp_trait have_trait person)
                     else t !! person)) as Hloop.
  { induction l as [|x l IH]; intros g t; cbn [foldl].
    - by rewrite !(decide_False _ _ (not_elem_of_nil person)).
    - rewrite parse_hypothesis_step.
      specialize (IH (<[x := hyp_gene one_gene two_genes x]> g)
                     (<[x := hyp_trait have_trait x]> t)).
      cbn zeta in IH. destruct IH as [-> ->].
      destruct (decide (person ∈ l)) as [Hl|Hl].
      + assert (person ∈ x :: l) as Hc by (by apply elem_of_cons; right).
        by rewrite !(decide_True _ _ Hc).
      + destruct (decide (person = x)) as [->|Hne].
        * assert (x ∈ x :: l) as Hc by (by apply elem_of_cons; left).
          by rewrite !(decide_True _ _ Hc), !lookup_insert_eq.
        * assert (person ∉ x :: l) as Hc
            by (intros [?|?]%elem_of_cons; done).
          by rewrite !(decide_False _ _ Hc), !lookup_insert_ne. }
  specialize (Hloop (keys people) ∅ ∅). cbn zeta in Hloop.
  destruct Hloop as [-> ->].
  destruct (decide (person ∈ keys people)) as [Hin|Hin].
  - apply Hk in Hin as [rec ->]. done.
  - rewrite Hk, <- eq_None_not_Some in Hin. by rewrite Hin, !lookup_empty.
Qed.

Lemma parse_hypothesis_genes people one_gene two_genes have_trait person :
  (parse_hypothesis people one_gene two_genes have_trait).1 !! person
  = (λ _, hyp_gene one_gene two_genes person) <$> people !! person.
Proof. apply parse_hypothesis_lookup. Qed.

Lemma parse_hypothesis_trait people one_gene two_genes have_trait person :
  (parse_hypothesis people one_gene two_genes have_trait).2 !! person
  = (λ _, hyp_trait have_trait person) <$> people !! person.
Proof. apply parse_hypothesis_lookup. Qed.

Lemma hyp_gene_overlap one_gene two_genes person :
  hyp_gene one_gene (two_genes ∖ one_gene) person
  = hyp_gene one_gene two_genes person.
Proof.
  unfold hyp_gene. destruct (decide (person ∈ one_gene)) as [|H1]; [done|].
  destruct (decide (person ∈ two_genes)) as [H2|H2].
  - rewrite decide_True; [done|]. by apply elem_of_difference.
  - rewrite decide_False; [done|]. by intros [? _]%elem_of_difference.
Qed.

Lemma parse_hypothesis_overlap people one_gene two_genes have_trait :
  parse_hypothesis people one_gene (two_genes ∖ one_gene) have_trait
  = parse_hypothesis people one_gene two_genes have_trait.
Proof.
  destruct (parse_hypothesis people one_gene (two_genes ∖ one_gene)
              have_trait) as [g1 t1] eqn:E1.
  destruct (parse_hypothesis people one_gene two_genes have_trait)
    as [g2 t2] eqn:E2.
  f_equal; apply map_eq; intros k.
  - change g1 with (g1, t1).1. change g2 with (g2, t2).1.
    rewrite <- E1, <- E2, !parse_hypothesis_genes.
    by rewrite hyp_gene_overlap.
  - change t1 with (g1, t1).2. change t2 with (g2, t2).2.
    by rewrite <- E1, <- E2, !parse_hypothesis_trait.
Qed.

(** ** Transmission *)

Lemma p_parent_transmits model c : p_parent model c = transmits model c.
Proof. destruct c; unfold p_parent, transmits, mutationRate; [done| |done]. ring. Qed.

(** C7. The probability that a parent passes the variant copy on is 0.5
    for a parent with one copy, whatever the mutation rate,
    [1 - mutation] for a parent with two copies and [mutation] for a
    parent with none. *)
Theorem transmission_probability (model : probs) :
  p_parent model C1 = Q2Qc 0.5 ∧
  p_parent model C2 = 1 - probs_mutation model ∧
  p_parent model C0 = probs_mutation model.
Proof. split; [apply (p_parent_transmits model C1)|done]. Qed.

(** ** Products and sums *)

Lemma Qc_prod_Permutation l1 l2 : l1 ≡ₚ l2 → Qc_prod l1 = Qc_prod l2.
Proof.
  unfold Qc_prod.
  induction 1 as [|x l1 l2 _ IH|x y l|l1 l2 l3 _ IH1 _ IH2]; cbn [foldr].
  - done.
  - by rewrite IH.
  - ring.
  - by rewrite IH1.
Qed.

Lemma Qc_sum_Permutation l1 l2 : l1 ≡ₚ l2 → Qc_sum l1 = Qc_sum l2.
Proof.
  unfold Qc_sum.
  induction 1 as [|x l1 l2 _ IH|x y l|l1 l2 l3 _ IH1 _ IH2]; cbn [foldr].
  - done.
  - by rewrite IH.
  - ring.
  - by rewrite IH1.
Qed.

Lemma foldl_mult_Qc_prod a l :
  foldl (λ joint_p p, joint_p * p) a l = a * Qc_prod l.
Proof.
  unfold Qc_prod.
  revert a. induction l as [|x l IH]; intros a; cbn [foldl foldr].
  - ring.
  - rewrite IH. ring.
Qed.

(** ** The evaluator computes the product of the factors *)

(** The second loop of [joint_probability], when no lookup fails. *)
Lemma p_list_loop {V} (f : string → V → option Qc) (g : string → V → Qc)
    (l : list (string * V)) (acc : gmap string Qc) :
  (∀ k v, (k, v) ∈ l → f k v = Some (g k v)) →
  NoDup l.*1 →
  (∀ k, k ∈ l.*1 → acc !! k = None) →
  ∃ p_list,
    for_each (λ (p_list : gmap string Qc) '(k, v),
                p ← f k v; Some (<[k := p]> p_list)) acc l = Some p_list ∧
    map_to_list p_list ≡ₚ ((λ '(k, v), (k, g k v)) <$> l) ++ map_to_list acc.
Proof.
  revert acc. induction l as [|[k v] l IH]; intros acc Hf Hnd Hacc.
  - exists acc. done.
  - cbn in Hnd. apply list.NoDup_cons in Hnd as [Hk Hnd].
    cbn [for_each]. rewrite (Hf k v) by (by apply elem_of_cons; left).
    cbn [mbind option_bind].
    destruct (IH (<[k := g k v]> acc)) as (p_list & -> & Hperm).
    + intros k' v' Hin. apply Hf. by apply elem_of_cons; right.
    + done.
    + intros k' Hin. rewrite lookup_insert_ne by (by intros ->).
      apply Hacc. cbn. by apply elem_of_cons; right.
    + exists p_list. split; [done|]. rewrite Hperm.
      rewrite map_to_list_insert
        by (apply Hacc; cbn; by apply elem_of_cons; left).
      cbn. by rewrite Permutation_middle.
Qed.

(** The body of the second loop on a well-formed record. *)
Lemma person_p_factor model people one_gene two_genes have_trait person rec :
  people !! person = Some rec →
  is_root rec ∨ has_parents (dom people) rec →
  let gt := parse_hypothesis people one_gene two_genes have_trait in
  person_p model gt.1 gt.2 person rec
  = Some (factor model (hyp_gene one_gene two_genes) (hyp_trait have_trait)
            person rec).
Proof.
  intros Hrec Hwf gt. unfold person_p, factor, inherited_gene, p_parents.
  assert (gt.1 !! person = Some (hyp_gene one_gene two_genes person)) as Hg
    by (unfold gt; by rewrite parse_hypothesis_genes, Hrec).
  assert (gt.2 !! person = Some (hyp_trait have_trait person)) as Ht
    by (unfold gt; by rewrite parse_hypothesis_trait, Hrec).
  destruct Hwf as [[Hm Hf]|Hwf].
  - rewrite decide_True by done. rewrite Hg, Ht, Hm, Hf. done.
  - unfold has_parents in Hwf.
    destruct (person_mother rec) as [mo|] eqn:Hm; [|done].
    destruct (person_father rec) as [fa|] eqn:Hf; [|done].
    destruct Hwf as [Hmo Hfa].
    rewrite decide_False by (by intros [? _]).
    apply elem_of_dom in Hmo as [rmo Hmo]. apply elem_of_dom in Hfa as [rfa Hfa].
    assert (gt.1 !! mo = Some (hyp_gene one_gene two_genes mo)) as Hgmo
      by (unfold gt; by rewrite parse_hypothesis_genes, Hmo).
    assert (gt.1 !! fa = Some (hyp_gene one_gene two_genes fa)) as Hgfa
      by (unfold gt; by rewrite parse_hypothesis_genes, Hfa).
    cbn [mbind option_bind].
    rewrite Hgfa. cbn [mbind option_bind].
    rewrite Hgmo. cbn [mbind option_bind].
    rewrite Hg. cbn [mbind option_bind].
    rewrite Ht. cbn [mbind option_bind].
    rewrite !p_parent_transmits. unfold child_gene, parent_derived.
    by destruct (hyp_gene one_gene two_genes person).
Qed.

Lemma joint_probability_well_formed model people one_gene two_genes
    have_trait :
  well_formed people →
  joint_probability model people one_gene two_genes have_trait
  = Some (joint model people (hyp_gene one_gene two_genes)
            (hyp_trait have_trait)).
Proof.
  intros Hwf. unfold joint_probability, joint.
  pose proof (person_p_factor model people one_gene two_genes have_trait)
    as Hp.
  destruct (parse_hypothesis people one_gene two_genes have_trait)
    as [genes trait]. cbn [fst snd] in Hp.
  destruct (p_list_loop (person_p model genes trait)
              (factor model (hyp_gene one_gene two_genes)
                 (hyp_trait have_trait))
              (map_to_list people) ∅) as (p_list & -> & Hperm).
  - intros k v Hin%elem_of_map_to_list. apply Hp; [done|]. by eapply Hwf.
  - apply NoDup_fst_map_to_list.
  - intros k _. apply lookup_empty.
  - cbn [mbind option_bind]. f_equal.
    rewrite foldl_mult_Qc_prod, Qcmult_1_l.
    rewrite map_to_list_empty, app_nil_r in Hperm.
    rewrite (Qc_prod_Permutation _ _ (fmap_Permutation snd _ _ Hperm)).
    rewrite <- list_fmap_compose. f_equal.
    apply list_fmap_ext. by intros _ [k v] _.
Qed.

(** C6. On a well-formed pedigree [joint_probability] returns the product
    over all individuals of the individual's factor: the gene prior times
    the trait probability for an individual without recorded parents, the
    parent-derived gene probability times the trait probability for an
    individual with both parents recorded. *)
Theorem joint_probability_is_product_of_factors (model : probs)
    (people : gmap string person_record)
    (one_gene two_genes have_trait : gset string) :
  well_formed people →
  joint_probability model people one_gene two_genes have_trait
  = Some (Qc_prod
            ((λ '(person, rec),
                let count := hyp_gene one_gene two_genes in
                let t := hyp_trait have_trait person in
                match person_mother rec, person_father rec with
                | None, None =>
                    genePrior model (count person)
                    * traitGivenGene model (count person) t
                | Some mo, Some fa =>
                    parent_derived model (count fa) (count mo) (count person)
                    * traitGivenGene model (count person) t
                | _, _ => 0
                end) <$> map_to_list people)).
Proof. apply joint_probability_well_formed. Qed.

Lemma joint_probability_is_product_of_factors_witness :
  well_formed test_people ∧
  joint_probability PROBS test_people {["Harry"]} {["James"]} {["James"]}
  = Some (joint PROBS test_people (hyp_gene {["Harry"]} {["James"]})
            (hyp_trait {["James"]})).
Proof.
  assert (well_formed test_people) as Hwf
    by (apply (bool_decide_unpack _); vm_compute; exact I).
  split; [exact Hwf|].
  exact (joint_probability_is_product_of_factors PROBS test_people
           {["Harry"]} {["James"]} {["James"]} Hwf).
Defined.

(** The value of lines 245-248: 0.0026643247488. *)
Example joint_probability_test_people :
  joint_probability PROBS test_people {["Harry"]} {["James"]} {["James"]}
  = Some (Q2Qc 0.0026643247488).
Proof. apply (bool_decide_unpack _). vm_compute. exact I. Qed.

(** C8. For a child whose two recorded parents have no copy of the gene,
    the gene factor of the evaluator is [(1 - m)²] for no copy,
    [2 m (1 - m)] for one copy and [m²] for two copies, [m] the mutation
    rate. *)
Theorem child_of_parents_without_gene (model : probs)
    (people : gmap string person_record)
    (one_gene two_genes have_trait : gset string)
    (person : string) (rec : person_record) (mo fa : string) :
  people !! person = Some rec →
  person_mother rec = Some mo → person_father rec = Some fa →
  mo ∈ dom people → fa ∈ dom people →
  mo ∉ one_gene → mo ∉ two_genes → fa ∉ one_gene → fa ∉ two_genes →
  let m := probs_mutation model in
  inherited_gene model
    (parse_hypothesis people one_gene two_genes have_trait).1 person rec
  = Some (match hyp_gene one_gene two_genes person with
          | C0 => (1 - m) * (1 - m)
          | C1 => 2 * m * (1 - m)
          | C2 => m * m
          end).
Proof.
  intros Hrec Hm Hf [rmo Hmo]%elem_of_dom [rfa Hfa]%elem_of_dom
    Hmo1 Hmo2 Hfa1 Hfa2 m.
  unfold inherited_gene, p_parents. rewrite Hm, Hf. cbn [mbind option_bind].
  rewrite !parse_hypothesis_genes, Hmo, Hfa, Hrec.
  cbn [fmap option_fmap option_map mbind option_bind].
  assert (∀ k, k ∉ one_gene → k ∉ two_genes →
            hyp_gene one_gene two_genes k = C0) as H0
    by (intros k ??; unfold hyp_gene; by rewrite !decide_False).
  rewrite (H0 fa), (H0 mo) by done. cbn [p_parent]. fold m. f_equal.
  destruct (hyp_gene one_gene two_genes person); cbn [child_gene]; ring.
Qed.

Lemma child_of_parents_without_gene_witness :
  inherited_gene PROBS (parse_hypothesis test_people {["Harry"]} ∅ ∅).1
    "Harry" {| person_name := "Harry"; person_mother := Some "Lily";
               person_father := Some "James"; person_trait := None |}
  = Some (2 * Q2Qc 0.01 * (1 - Q2Qc 0.01)).
Proof.
  refine (child_of_parents_without_gene PROBS test_people {["Harry"]} ∅ ∅
            "Harry" _ "Lily" "James" _ _ _ _ _ _ _ _ _);
    try reflexivity;
    apply (bool_decide_unpack _); vm_compute; exact I.
Defined.

(** C10. When [one_gene] and [two_genes] overlap, the evaluator stores one
    copy for every person in both sets, and it returns what it returns
    with the overlap taken out of [two_genes]: a probability, not an
    error, on a well-formed pedigree. *)
Theorem joint_probability_overlap (model : probs)
    (people : gmap string person_record)
    (one_gene two_genes have_trait : gset string) :
  (∀ person, person ∈ one_gene ∩ two_genes → person ∈ dom people →
     (parse_hypothesis people one_gene two_genes have_trait).1 !! person
     = Some C1) ∧
  joint_probability model people one_gene two_genes have_trait
  = joint_probability model people one_gene (two_genes ∖ one_gene)
      have_trait ∧
  (well_formed people →
   is_Some (joint_probability model people one_gene two_genes have_trait)).
Proof.
  split; [|split].
  - intros person [H1 _]%elem_of_intersection [rec Hrec]%elem_of_dom.
    rewrite parse_hypothesis_genes, Hrec. cbn. unfold hyp_gene.
    by rewrite decide_True.
  - unfold joint_probability. by rewrite parse_hypothesis_overlap.
  - intros Hwf. rewrite joint_probability_well_formed by done. by eexists.
Qed.

Lemma joint_probability_overlap_witness :
  (parse_hypothesis test_people {["Harry"]} {["Harry"; "James"]}
     {["James"]}).1 !! "Harry" = Some C1 ∧
  joint_probability PROBS test_people {["Harry"]} {["Harry"; "James"]}
    {["James"]}
  = joint_probability PROBS test_people {["Harry"]}
      ({["Harry"; "James"]} ∖ {["Harry"]}) {["James"]} ∧
  is_Some (joint_probability PROBS test_people {["Harry"]}
             {["Harry"; "James"]} {["James"]}).
Proof.
  destruct (joint_probability_overlap PROBS test_people {["Harry"]}
              {["Harry"; "James"]} {["James"]}) as (H1 & H2 & H3).
  split; [|split].
  - apply H1; apply (bool_decide_unpack _); vm_compute; exact I.
  - exact H2.
  - apply H3. apply (bool_decide_unpack _). vm_compute. exact I.
Defined.

(** ** The subsets that [powerset] lists *)

Lemma combinations_too_long {A} (l : list A) r :
  (length l < r)%nat → combinations l r = [].
Proof.
  revert r. induction l as [|x l IH]; intros [|r] Hr; cbn in *; try lia.
  - done.
  - rewrite !IH by lia. done.
Qed.

Lemma combinations_0 {A} (l : list A) : combinations l 0 = [[]].
Proof. by destruct l. Qed.

Lemma combinations_cons_upto {A} (x : A) l n :
  concat ((λ r, combinations (x :: l) r) <$> seq 0 (S n))
  ≡ₚ (cons x <$> concat ((λ r, combinations l r) <$> seq 0 n))
     ++ concat ((λ r, combinations l r) <$> seq 0 (S n)).
Proof.
  induction n as [|n IH].
  - cbn. by rewrite combinations_0.
  - rewrite (seq_S (S n)), fmap_app, concat_app, IH. clear IH.
    rewrite (seq_S n), !fmap_app, !concat_app. cbn.
    rewrite !app_nil_r, fmap_app, <- !app_assoc.
    apply Permutation_app_head.
    rewrite !app_assoc. apply Permutation_app_tail.
    rewrite <- (app_assoc (cons x <$> combinations l n)).
    apply Permutation_app_comm.
Qed.

Lemma all_combinations_cons {A} (x : A) l :
  all_combinations (x :: l)
  ≡ₚ (cons x <$> all_combinations l) ++ all_combinations l.
Proof.
  unfold all_combinations. cbn [length].
  replace (S (length l) + 1)%nat with (S (length l + 1)) by lia.
  rewrite combinations_cons_upto. apply Permutation_app_head.
  rewrite (seq_S (length l + 1)), fmap_app, concat_app. cbn.
  rewrite combinations_too_long by lia. by rewrite !app_nil_r.
Qed.

Lemma powerset_list_cons x l :
  powerset_list (x :: l)
  ≡ₚ (({[x]} ∪.) <$> powerset_list l) ++ powerset_list l.
Proof.
  unfold powerset_list. rewrite all_combinations_cons, fmap_app.
  by rewrite <- !list_fmap_compose.
Qed.

Lemma powerset_list_Permutation l1 l2 :
  l1 ≡ₚ l2 → powerset_list l1 ≡ₚ powerset_list l2.
Proof.
  induction 1 as [|x l1 l2 _ IH|x y l|l1 l2 l3 _ IH1 _ IH2].
  - done.
  - by rewrite !powerset_list_cons, IH.
  - rewrite !powerset_list_cons, !fmap_app, <- !list_fmap_compose.
    rewrite <- !app_assoc. 
    assert ((({[y]} ∪.) ∘ ({[x]} ∪.)) <$> powerset_list l
            = (({[x]} ∪.) ∘ ({[y]} ∪.)) <$> powerset_list l) as ->.
    { apply list_fmap_ext. intros _ T _. cbn. set_solver. }
    apply Permutation_app_head.
    rewrite !app_assoc. apply Permutation_app_tail.
    apply Permutation_app_comm.
  - by rewrite IH1.
Qed.

Lemma elem_of_powerset_list T l :
  T ∈ powerset_list l ↔ T ⊆ list_to_set l.
Proof.
  revert T. induction l as [|x l IH]; intros T.
  - cbn. rewrite list_elem_of_singleton. set_solver.
  - rewrite powerset_list_cons, elem_of_app, list_elem_of_fmap.
    cbn [list_to_set]. split.
    + intros [(T' & -> & HT')|HT].
      * apply IH in HT'. set_solver.
      * apply IH in HT. set_solver.
    + intros HT. destruct (decide (x ∈ T)) as [Hx|Hx].
      * left. exists (T ∖ {[x]}). split.
        -- apply set_eq. intros y. rewrite elem_of_union, elem_of_difference,
             elem_of_singleton.
           destruct (decide (y = x)) as [->|]; naive_solver.
        -- apply IH. set_solver.
      * right. apply IH. set_solver.
Qed.

Lemma powerset_powerset_list s : powerset s = powerset_list (elements s).
Proof. reflexivity. Qed.

Lemma elem_of_powerset T s : T ∈ powerset s ↔ T ⊆ s.
Proof.
  by rewrite powerset_powerset_list, elem_of_powerset_list,
    list_to_set_elements_L.
Qed.

Lemma powerset_insert x s :
  x ∉ s →
  powerset ({[x]} ∪ s) ≡ₚ (({[x]} ∪.) <$> powerset s) ++ powerset s.
Proof.
  intros Hx. rewrite !powerset_powerset_list.
  rewrite (powerset_list_Permutation _ _ (elements_union_singleton s x Hx)).
  apply powerset_list_cons.
Qed.

Lemma powerset_empty : powerset ∅ = [∅].
Proof. rewrite powerset_powerset_list, elements_empty. reflexivity. Qed.

(** ** The enumeration loops *)

Lemma py_any_total {A} (test : A → option bool) (g : A → bool) l :
  (∀ x, x ∈ l → test x = Some (g x)) →
  py_any test l = Some (bool_decide (Exists (λ x, g x = true) l)).
Proof.
  induction l as [|x l IH]; intros Ht.
  - cbn [py_any].
    by rewrite bool_decide_eq_false_2 by (by intros ?%Exists_nil).
  - cbn [py_any]. rewrite (Ht x) by (by apply elem_of_cons; left).
    cbn [mbind option_bind]. destruct (g x) eqn:Hg.
    + by rewrite bool_decide_eq_true_2 by (by apply Exists_cons_hd).
    + rewrite IH by (intros; apply Ht; by apply elem_of_cons; right).
      f_equal. apply bool_decide_ext. rewrite Exists_cons.
      split; [by right|]. intros [?|?]; [congruence|done].
Qed.

Lemma contradicts_false rec person have_trait :
  contradicts rec person have_trait = false ↔
  agrees_on rec person have_trait.
Proof.
  unfold contradicts, agrees_on. destruct (person_trait rec) as [t|]; [|done].
  rewrite negb_false_iff, eqb_true_iff. split.
  - intros ->. by rewrite bool_decide_eq_true.
  - intros H. destruct t.
    + symmetry. by apply bool_decide_eq_true, H.
    + symmetry. apply bool_decide_eq_false. intros Hin. by apply H in Hin.
Qed.

(** [fails_evidence] never raises on the names of the pedigree, and it
    is [False] exactly on the trait sets that agree with the evidence. *)
Lemma fails_evidence_agrees people have_trait :
  fails_evidence people (dom people) have_trait
  = Some (bool_decide (¬ agrees people have_trait)).
Proof.
  unfold fails_evidence.
  rewrite (py_any_total _
    (λ person, match people !! person with
               | Some rec => contradicts rec person have_trait
               | None => false
               end)).
  - f_equal. apply bool_decide_ext. split.
    + intros (person & _ & Hc)%Exists_exists Hag.
      destruct (people !! person) as [rec|] eqn:Hrec; [|done].
      assert (contradicts rec person have_trait = false) as Hf; [|congruence].
      apply contradicts_false. by apply (Hag person).
    + intros Hnot. apply dec_stable. intros Hno. apply Hnot.
      intros person rec Hrec. apply contradicts_false.
      apply not_true_is_false. intros Hc. apply Hno, Exists_exists.
      exists person. split; [|by rewrite Hrec].
      apply list_elem_of_In, elem_of_elements, elem_of_dom. by exists rec.
  - intros person [rec Hrec]%elem_of_elements%elem_of_dom.
    by rewrite Hrec.
Qed.


Lemma mbind_Some {A B} (f : A → option B) (x : A) : Some x ≫= f = f x.
Proof. reflexivity. Qed.

Lemma for_each_app {A S} (body : S → A → option S) s l1 l2 :
  for_each body s (l1 ++ l2) = s' ← for_each body s l1; for_each body s' l2.
Proof.
  revert s. induction l1 as [|x l1 IH]; intros s; [done|].
  cbn [for_each app]. destruct (body s x) as [s'|]; [|done]. apply IH.
Qed.

Lemma for_each_bind {A B S} (body : S → B → option S) (g : A → list B) s l :
  for_each body s (l ≫= g) = for_each (λ s x, for_each body s (g x)) s l.
Proof.
  revert s. induction l as [|x l IH]; intros s; [done|].
  rewrite bind_cons, for_each_app. cbn [for_each].
  destruct (for_each body s (g x)) as [s'|]; [|done]. apply IH.
Qed.

Lemma for_each_ext {A S} (body1 body2 : S → A → option S) s l :
  (∀ s x, x ∈ l → body1 s x = body2 s x) →
  for_each body1 s l = for_each body2 s l.
Proof.
  revert s. induction l as [|x l IH]; intros s Hb; [done|].
  cbn [for_each]. rewrite Hb by (by apply elem_of_cons; left).
  destruct (body2 s x) as [s'|]; [|done].
  apply IH. intros s'' y Hy. apply Hb. by apply elem_of_cons; right.
Qed.

(** A loop whose body skips the elements that fail a test. *)
Lemma for_each_filter {A S} (P : A → Prop) `{∀ x, Decision (P x)}
    (body : S → A → option S) s l :
  for_each (λ s x, if bool_decide (¬ P x) then Some s else body s x) s l
  = for_each body s (filter P l).
Proof.
  revert s. induction l as [|x l IH]; intros s; [done|].
  cbn [for_each]. destruct (decide (P x)) as [HP|HP].
  - rewrite filter_cons_True by done.
    rewrite bool_decide_eq_false_2 by (by intros ?). cbn [for_each].
    destruct (body s x) as [s'|]; [|done]. apply IH.
  - rewrite filter_cons_False by done.
    rewrite bool_decide_eq_true_2 by done. apply IH.
Qed.

(** The hypotheses handed to the evaluator: for every surviving trait
    set, every [one_gene] and every [two_genes] disjoint from it. *)
Lemma enumerate_surviving people :
  enumerate people
  = Some (surviving people ≫= gene_hypotheses (dom people)).
Proof.
  unfold enumerate, surviving.
  assert (∀ l hs,
    for_each (λ hs have_trait,
                fails ← fails_evidence people (dom people) have_trait;
                if fails : bool then Some hs
                else Some (hs ++ gene_hypotheses (dom people) have_trait))
             hs l
    = Some (hs ++ (filter (agrees people) l
                     ≫= gene_hypotheses (dom people)))) as Hloop.
  { induction l as [|T l IH]; intros hs; cbn [for_each].
    - by rewrite app_nil_r.
    - rewrite fails_evidence_agrees, mbind_Some.
      destruct (decide (agrees people T)) as [HT|HT].
      + rewrite bool_decide_eq_false_2 by (by intros ?).
        rewrite filter_cons_True by done.
        by rewrite mbind_Some, IH, bind_cons, app_assoc.
      + rewrite bool_decide_eq_true_2 by done.
        rewrite filter_cons_False by done. rewrite mbind_Some. apply IH. }
  apply Hloop.
Qed.

(** [accumulate] evaluates and accumulates the enumerated hypotheses in
    order. *)
Lemma accumulate_enumerate model people :
  accumulate model people
  = for_each (evaluate_and_update model people) (initial people)
      (surviving people ≫= gene_hypotheses (dom people)).
Proof.
  unfold accumulate, surviving. rewrite for_each_bind.
  rewrite <- (for_each_filter (agrees people)).
  apply for_each_ext. intros probs T _.
  rewrite fails_evidence_agrees, mbind_Some.
  destruct (bool_decide (¬ agrees people T)); [done|].
  unfold gene_hypotheses. rewrite for_each_bind.
  apply for_each_ext. intros probs1 one_gene _.
  rewrite for_each_bind.
  apply for_each_ext. intros probs2 two_genes _.
  cbn [for_each]. unfold evaluate_and_update. cbn.
  by destruct (joint_probability _ _ _ _ _).
Qed.

(** ** The two arithmetics share their control flow

    The loops, the tests and the dictionary lookups of the program do
    not look at the numbers: the binary64 program runs through the same
    hypotheses and raises on the same inputs as the program over exact
    rationals. *)

Lemma binary64_update_lookup probabilities one_gene two_genes have_trait p
    person :
  Binary64.update probabilities one_gene two_genes have_trait p !! person
  = Binary64.update_entry one_gene two_genes have_trait p person
      <$> probabilities !! person.
Proof. apply for_all_keys_lookup. Qed.

Lemma binary64_normalize_lookup probabilities person :
  Binary64.normalize probabilities !! person
  = Binary64.normalize_entry <$> probabilities !! person.
Proof. apply (for_all_keys_lookup (λ _, Binary64.normalize_entry)). Qed.

Lemma binary64_accumulate_enumerate people :
  Binary64.accumulate people
  = for_each (Binary64.evaluate_and_update people) (Binary64.initial people)
      (surviving people ≫= gene_hypotheses (dom people)).
Proof.
  unfold Binary64.accumulate, surviving. rewrite for_each_bind.
  rewrite <- (for_each_filter (agrees people)).
  apply for_each_ext. intros probs T _.
  rewrite fails_evidence_agrees, mbind_Some.
  destruct (bool_decide (¬ agrees people T)); [done|].
  unfold gene_hypotheses. rewrite for_each_bind.
  apply for_each_ext. intros probs1 one_gene _.
  rewrite for_each_bind.
  apply for_each_ext. intros probs2 two_genes _.
  cbn [for_each]. unfold Binary64.evaluate_and_update. cbn.
  by destruct (Binary64.joint_probability _ _ _ _).
Qed.

(** Two loops over the same list whose bodies fail on the same elements
    fail together. *)
Lemma for_each_is_Some {A S1 S2} (body1 : S1 → A → option S1)
    (body2 : S2 → A → option S2) l :
  (∀ s1 s2 x, x ∈ l → is_Some (body1 s1 x) ↔ is_Some (body2 s2 x)) →
  ∀ s1 s2, is_Some (for_each body1 s1 l) ↔ is_Some (for_each body2 s2 l).
Proof.
  induction l as [|x l IH]; intros Hb s1 s2; cbn [for_each].
  - split; intros _; eauto.
  - pose proof (Hb s1 s2 x (list_elem_of_here _ _)) as Hx.
    destruct (body1 s1 x) as [s1'|], (body2 s2 x) as [s2'|];
      rewrite ?mbind_Some.
    + apply IH. intros t1 t2 y Hy. apply Hb. by apply elem_of_cons; right.
    + destruct Hx as [Hx _]. destruct Hx as [? [=]]. eauto.
    + destruct Hx as [_ Hx]. destruct Hx as [? [=]]. eauto.
    + split; intros [? [=]].
Qed.

Lemma is_Some_then {A B} (x : option A) (f : A → B) :
  is_Some (a ← x; Some (f a)) ↔ is_Some x.
Proof. destruct x; cbn; split; intros [? [=]]; eauto. Qed.

(** The evaluator raises [KeyError] on the same inputs in both
    arithmetics: the lookups do not depend on the numbers. *)
Lemma binary64_person_p_is_Some model genes trait person rec :
  is_Some (Binary64.person_p genes trait person rec)
  ↔ is_Some (person_p model genes trait person rec).
Proof.
  unfold Binary64.person_p, person_p, Binary64.inherited_gene,
    inherited_gene, Binary64.p_parents, p_parents.
  destruct (decide _) as [_|_];
    destruct (genes !! person), (trait !! person),
      (person_father rec ≫= (genes !!.)), (person_mother rec ≫= (genes !!.));
    cbn; split; intros [? [=]]; eauto.
Qed.

Lemma binary64_joint_probability_is_Some model people one_gene two_genes
    have_trait :
  is_Some (Binary64.joint_probability people one_gene two_genes have_trait)
  ↔ is_Some (joint_probability model people one_gene two_genes have_trait).
Proof.
  unfold Binary64.joint_probability, joint_probability.
  destruct (parse_hypothesis _ _ _ _) as [genes trait].
  rewrite !is_Some_then. apply for_each_is_Some.
  intros s1 s2 [person rec] _. rewrite !is_Some_then.
  apply binary64_person_p_is_Some.
Qed.

Lemma binary64_joint_probability_well_formed people one_gene two_genes
    have_trait :
  well_formed people →
  is_Some (Binary64.joint_probability people one_gene two_genes have_trait).
Proof.
  intros Hwf. apply (binary64_joint_probability_is_Some PROBS).
  by rewrite joint_probability_well_formed.
Qed.

Lemma elem_of_gene_hypotheses names have_trait h :
  h ∈ gene_hypotheses names have_trait ↔
  hyp_one_gene h ⊆ names ∧ hyp_two_genes h ⊆ names ∖ hyp_one_gene h ∧
  hyp_have_trait h = have_trait.
Proof.
  unfold gene_hypotheses. rewrite list_elem_of_bind. split.
  - intros (one_gene & Hh & H1). apply list_elem_of_bind in Hh
      as (two_genes & ->%list_elem_of_singleton & H2).
    apply elem_of_powerset in H1, H2. done.
  - intros (H1 & H2 & <-). exists (hyp_one_gene h). split.
    + apply list_elem_of_bind. exists (hyp_two_genes h).
      split; [|by apply elem_of_powerset].
      apply list_elem_of_singleton. by destruct h.
    + by apply elem_of_powerset.
Qed.

Lemma elem_of_surviving people have_trait :
  have_trait ∈ surviving people ↔
  have_trait ⊆ dom people ∧ agrees people have_trait.
Proof.
  unfold surviving. rewrite list_elem_of_filter, elem_of_powerset. tauto.
Qed.

Lemma elem_of_enumerated people h :
  h ∈ surviving people ≫= gene_hypotheses (dom people) ↔
  hyp_have_trait h ⊆ dom people ∧ agrees people (hyp_have_trait h) ∧
  hyp_one_gene h ⊆ dom people ∧
  hyp_two_genes h ⊆ dom people ∖ hyp_one_gene h.
Proof.
  rewrite list_elem_of_bind. split.
  - intros (T & (H1 & H2 & <-)%elem_of_gene_hypotheses
              & [HT Hag]%elem_of_surviving). done.
  - intros (HT & Hag & H1 & H2). exists (hyp_have_trait h). split.
    + by apply elem_of_gene_hypotheses.
    + by apply elem_of_surviving.
Qed.

(** C9. On a well-formed pedigree the loops of [main], in either
    arithmetic, are the loop that evaluates and accumulates, one after the
    other, the hypotheses of a list [hs], and every one of these
    evaluations returns: [hs] is the list of the hypotheses handed to the
    evaluator.  A hypothesis is in [hs] exactly when its trait set is a
    set of individuals that agrees with every observed trait (and its
    gene sets are a subset of the individuals and a subset of the rest);
    in particular every hypothesis of [hs] gives the trait to an
    individual observed with it. *)
Theorem evidence_filtering (model : probs)
    (people : gmap string person_record) :
  well_formed people →
  ∃ hs,
    enumerate people = Some hs ∧
    accumulate model people
    = for_each (evaluate_and_update model people) (initial people) hs ∧
    Binary64.accumulate people
    = for_each (Binary64.evaluate_and_update people)
        (Binary64.initial people) hs ∧
    (∀ h, h ∈ hs →
       is_Some (joint_probability model people (hyp_one_gene h)
                  (hyp_two_genes h) (hyp_have_trait h)) ∧
       is_Some (Binary64.joint_probability people (hyp_one_gene h)
                  (hyp_two_genes h) (hyp_have_trait h))) ∧
    (∀ h, h ∈ hs → agrees people (hyp_have_trait h)) ∧
    (∀ have_trait, have_trait ⊆ dom people → agrees people have_trait →
       ∀ one_gene two_genes,
         one_gene ⊆ dom people → two_genes ⊆ dom people ∖ one_gene →
         {| hyp_one_gene := one_gene; hyp_two_genes := two_genes;
            hyp_have_trait := have_trait |} ∈ hs) ∧
    (∀ person rec, people !! person = Some rec →
       person_trait rec = Some true →
       ∀ h, h ∈ hs → person ∈ hyp_have_trait h).
Proof.
  intros Hwf. eexists. split; [apply enumerate_surviving|].
  split; [apply accumulate_enumerate|].
  split; [apply binary64_accumulate_enumerate|].
  split; [|split; [|split]].
  - intros h _. split.
    + by rewrite joint_probability_well_formed.
    + by apply binary64_joint_probability_well_formed.
  - by intros h (_ & Hag & _)%elem_of_enumerated.
  - intros T HT Hag one_gene two_genes H1 H2.
    by apply elem_of_enumerated.
  - intros person rec Hrec Ht h (_ & Hag & _)%elem_of_enumerated.
    specialize (Hag person rec Hrec). unfold agrees_on in Hag.
    rewrite Ht in Hag. by apply Hag.
Qed.

Lemma evidence_filtering_witness :
  ∃ hs, enumerate test_people = Some hs ∧
    accumulate PROBS test_people
    = for_each (evaluate_and_update PROBS test_people)
        (initial test_people) hs ∧
    Binary64.accumulate test_people
    = for_each (Binary64.evaluate_and_update test_people)
        (Binary64.initial test_people) hs ∧
    {| hyp_one_gene := {["Harry"]}; hyp_two_genes := {["James"]};
       hyp_have_trait := {["James"]} |} ∈ hs ∧
    ∀ h, h ∈ hs → "James" ∈ hyp_have_trait h.
Proof.
  destruct (evidence_filtering PROBS test_people)
    as (hs & He & Ha & Hb & _ & _ & Hc & Ht).
  { apply (bool_decide_unpack _). vm_compute. exact I. }
  exists hs. split; [exact He|]. split; [exact Ha|]. split; [exact Hb|].
  split.
  - apply Hc; apply (bool_decide_unpack _); vm_compute; exact I.
  - intros h Hh. eapply (Ht "James"); [reflexivity|reflexivity|exact Hh].
Defined.

(** ** Pedigrees that are not well formed *)

Lemma for_each_fail {A S} (body : S → A → option S) s l x :
  x ∈ l → (∀ s, body s x = None) → for_each body s l = None.
Proof.
  intros Hx Hb. revert s. induction l as [|y l IH]; intros s.
  - by apply not_elem_of_nil in Hx.
  - cbn [for_each]. apply elem_of_cons in Hx as [<-|Hx].
    + by rewrite Hb.
    + destruct (body s y) as [s'|]; [|done]. by apply IH.
Qed.

Lemma for_each_succeed {A S} (body : S → A → option S) s l :
  (∀ s x, x ∈ l → is_Some (body s x)) → is_Some (for_each body s l).
Proof.
  revert s. induction l as [|y l IH]; intros s Hb; [by eexists|].
  cbn [for_each].
  destruct (Hb s y) as [s' ->]; [by apply elem_of_cons; left|].
  rewrite mbind_Some. apply IH. intros s'' x Hx. apply Hb.
  by apply elem_of_cons; right.
Qed.

(** The body of the second loop raises on a record that is not a root
    and whose parents are not both names of the pedigree. *)
Lemma person_p_bad_parents model people one_gene two_genes have_trait
    person rec :
  bad_parents people rec →
  let gt := parse_hypothesis people one_gene two_genes have_trait in
  person_p model gt.1 gt.2 person rec = None.
Proof.
  intros [Hroot Hpar] gt. unfold person_p, inherited_gene, p_parents.
  rewrite decide_False by done. unfold has_parents in Hpar.
  assert (∀ k, k ∉ dom people → gt.1 !! k = None) as Hout.
  { intros k Hk. unfold gt. rewrite parse_hypothesis_genes.
    apply not_elem_of_dom in Hk. by rewrite Hk. }
  destruct (person_father rec) as [fa|] eqn:Hf.
  - destruct (decide (fa ∈ (dom people : gset string))) as [Hfa|Hfa].
    + destruct (person_mother rec) as [mo|] eqn:Hm.
      * cbn [mbind option_bind]. rewrite (Hout mo) by tauto.
        by destruct (gt.1 !! fa).
      * cbn [mbind option_bind]. by destruct (gt.1 !! fa).
    + cbn [mbind option_bind]. by rewrite (Hout fa).
  - done.
Qed.

Lemma joint_probability_bad_parents model people one_gene two_genes
    have_trait person rec :
  people !! person = Some rec → bad_parents people rec →
  joint_probability model people one_gene two_genes have_trait = None.
Proof.
  intros Hrec Hbad. unfold joint_probability.
  pose proof (person_p_bad_parents model people one_gene two_genes
                have_trait person rec Hbad) as Hp.
  destruct (parse_hypothesis people one_gene two_genes have_trait)
    as [genes trait]. cbn [fst snd] in Hp.
  rewrite (for_each_fail _ _ _ (person, rec)); [done| |].
  - by apply elem_of_map_to_list.
  - intros s. by rewrite Hp.
Qed.

(** The people whose trait is observed. *)
Lemma observed_agrees people :
  let observed :=
    dom (filter (λ '(_, rec), person_trait rec = Some true) people) in
  observed ⊆ dom people ∧ agrees people observed.
Proof.
  intros observed. split.
  - apply subseteq_dom, map_filter_subseteq.
  - intros person rec Hrec. unfold agrees_on.
    destruct (person_trait rec) as [t|] eqn:Ht; [|done].
    unfold observed. rewrite elem_of_dom. split.
    + intros [rec' [Hrec' Hp]%map_lookup_filter_Some]. cbn in Hp.
      congruence.
    + intros ->. exists rec. by apply map_lookup_filter_Some.
Qed.

(** The enumeration always hands at least one hypothesis over. *)
Lemma enumerated_nonempty people :
  surviving people ≫= gene_hypotheses (dom people) ≠ [].
Proof.
  destruct (observed_agrees people) as [Hsub Hag].
  intros Hnil.
  assert ({| hyp_one_gene := ∅; hyp_two_genes := ∅;
             hyp_have_trait :=
               dom (filter (λ '(_, rec), person_trait rec = Some true)
                      people) |}
          ∈ surviving people ≫= gene_hypotheses (dom people)) as Hin.
  { apply elem_of_enumerated. cbn. set_solver. }
  rewrite Hnil in Hin. by apply not_elem_of_nil in Hin.
Qed.

Lemma accumulate_bad_parents model people person rec :
  people !! person = Some rec → bad_parents people rec →
  accumulate model people = None.
Proof.
  intros Hrec Hbad. rewrite accumulate_enumerate.
  pose proof (enumerated_nonempty people) as Hne.
  destruct (surviving people ≫= gene_hypotheses (dom people))
    as [|h hs]; [done|].
  apply (for_each_fail _ _ _ h); [by apply elem_of_cons; left|].
  intros s. unfold evaluate_and_update.
  by rewrite (joint_probability_bad_parents _ _ _ _ _ person rec).
Qed.

Lemma accumulate_well_formed model people :
  well_formed people → is_Some (accumulate model people).
Proof.
  intros Hwf. rewrite accumulate_enumerate.
  apply for_each_succeed. intros s h _. unfold evaluate_and_update.
  rewrite joint_probability_well_formed by done. by eexists.
Qed.

Lemma not_well_formed people :
  ¬ well_formed people →
  ∃ person rec, people !! person = Some rec ∧ bad_parents people rec.
Proof.
  intros (person & rec & Hrec & Hbad)%map_not_Forall.
  - exists person, rec. split; [done|]. unfold bad_parents. tauto.
  - apply _.
Qed.

(** C3, as the code has it. Nothing is checked before the enumeration.
    When a loaded record has one parent only, or a parent that is not a
    name of the pedigree, the enumeration still starts, every call of the
    evaluator raises, and [main] ends with that error instead of a table.
    In every other case, duplicated names included, [main] returns a
    table. *)
Theorem invalid_pedigree_raises_in_evaluator (model : probs)
    (rows : list row) :
  let people := load_data rows in
  (∃ hs, enumerate people = Some hs ∧ hs ≠ []) ∧
  (well_formed people → is_Some (main model rows)) ∧
  (¬ well_formed people →
   (∀ one_gene two_genes have_trait,
      joint_probability model people one_gene two_genes have_trait = None) ∧
   main model rows = None).
Proof.
  cbn zeta. split; [|split].
  - eexists. split; [apply enumerate_surviving|apply enumerated_nonempty].
  - intros Hwf. unfold main, posterior.
    destruct (accumulate_well_formed model _ Hwf) as [probs ->].
    by eexists.
  - intros (person & rec & Hrec & Hbad)%not_well_formed. split.
    + intros. by eapply joint_probability_bad_parents.
    + unfold main, posterior.
      by rewrite (accumulate_bad_parents _ _ person rec).
Qed.

Lemma invalid_pedigree_raises_in_evaluator_witness :
  let rows := [ {| row_name := "Harry"; row_mother := "Lily";
                   row_father := ""; row_trait := "" |};
                {| row_name := "Lily"; row_mother := "";
                   row_father := ""; row_trait := "0" |} ] in
  ¬ well_formed (load_data rows) ∧ main PROBS rows = None.
Proof.
  intros rows.
  assert (¬ well_formed (load_data rows)) as Hbad
    by (apply (bool_decide_unpack _); vm_compute; exact I).
  split; [exact Hbad|].
  exact (proj2 (proj2 (proj2
           (invalid_pedigree_raises_in_evaluator PROBS rows)) Hbad)).
Defined.

(** C3 fails as stated: a duplicated identity is an invalid pedigree, and
    [main] returns a table for it; the second row silently replaces the
    first. *)
Lemma duplicate_identity_not_detected :
  let rows := [ {| row_name := "A"; row_mother := ""; row_father := "";
                   row_trait := "" |};
                {| row_name := "A"; row_mother := ""; row_father := "";
                   row_trait := "1" |} ] in
  invalid_pedigree rows ∧
  is_Some (main PROBS rows) ∧
  load_data rows
  = {[ "A" := {| person_name := "A"; person_mother := None;
                 person_father := None; person_trait := Some true |} ]}.
Proof.
  intros rows. split; [|split].
  - right; right. intros [Hin _]%list.NoDup_cons. apply Hin.
    by apply elem_of_cons; left.
  - apply (bool_decide_unpack _). vm_compute. exact I.
  - apply (bool_decide_unpack _). vm_compute. exact I.
Qed.

(** ** Sums over the enumerated sets *)

Lemma sum_over_nil {A} (f : A → Qc) : sum_over [] f = 0.
Proof. reflexivity. Qed.

Lemma sum_over_cons {A} (f : A → Qc) x l :
  sum_over (x :: l) f = f x + sum_over l f.
Proof. reflexivity. Qed.

Lemma sum_over_app {A} (f : A → Qc) l1 l2 :
  sum_over (l1 ++ l2) f = sum_over l1 f + sum_over l2 f.
Proof.
  induction l1 as [|x l1 IH].
  - rewrite sum_over_nil. cbn [app]. ring.
  - cbn [app]. rewrite !sum_over_cons, IH. ring.
Qed.

Lemma sum_over_fmap {A B} (g : A → B) (f : B → Qc) l :
  sum_over (g <$> l) f = sum_over l (f ∘ g).
Proof. unfold sum_over. by rewrite <- list_fmap_compose. Qed.

Lemma sum_over_Permutation {A} (f : A → Qc) l1 l2 :
  l1 ≡ₚ l2 → sum_over l1 f = sum_over l2 f.
Proof.
  intros Hp. unfold sum_over. apply Qc_sum_Permutation.
  by apply fmap_Permutation.
Qed.

Lemma sum_over_ext {A} (f g : A → Qc) l :
  (∀ x, x ∈ l → f x = g x) → sum_over l f = sum_over l g.
Proof.
  intros Hfg. unfold sum_over. f_equal.
  apply list_fmap_ext. intros i x Hx. apply Hfg.
  by eapply list_elem_of_lookup_2.
Qed.

Lemma sum_over_plus {A} (f g : A → Qc) l :
  sum_over l (λ x, f x + g x) = sum_over l f + sum_over l g.
Proof.
  induction l as [|x l IH].
  - rewrite !sum_over_nil. ring.
  - rewrite !sum_over_cons, IH. ring.
Qed.

Lemma sum_over_bind {A B} (g : A → list B) (f : B → Qc) l :
  sum_over (l ≫= g) f = sum_over l (λ x, sum_over (g x) f).
Proof.
  induction l as [|x l IH].
  - reflexivity.
  - by rewrite bind_cons, sum_over_app, sum_over_cons, IH.
Qed.

Lemma sum_over_singleton {A} (f : A → Qc) x : sum_over [x] f = f x.
Proof. rewrite sum_over_cons, sum_over_nil. ring. Qed.

(** Adding one name to a set doubles its subsets. *)
Lemma sum_over_powerset_insert x s (f : gset string → Qc) :
  x ∉ s →
  sum_over (powerset ({[x]} ∪ s)) f
  = sum_over (powerset s) (λ T, f T + f ({[x]} ∪ T)).
Proof.
  intros Hx.
  rewrite (sum_over_Permutation _ _ _ (powerset_insert x s Hx)).
  rewrite sum_over_app, sum_over_fmap, sum_over_plus. apply Qcplus_comm.
Qed.

(** A new name has no copy, two copies or one copy. *)
Lemma gene_sum_insert x names f :
  x ∉ names →
  gene_sum ({[x]} ∪ names) f
  = gene_sum names (λ one_gene two_genes,
      f one_gene two_genes + f one_gene ({[x]} ∪ two_genes)
      + f ({[x]} ∪ one_gene) two_genes).
Proof.
  intros Hx. unfold gene_sum. rewrite sum_over_powerset_insert by done.
  apply sum_over_ext. intros one_gene Hone%elem_of_powerset.
  assert (x ∉ one_gene) as Hx1 by set_solver.
  replace (({[x]} ∪ names) ∖ one_gene) with ({[x]} ∪ names ∖ one_gene)
    by set_solver.
  replace (({[x]} ∪ names) ∖ ({[x]} ∪ one_gene)) with (names ∖ one_gene)
    by set_solver.
  rewrite sum_over_powerset_insert by set_solver.
  by rewrite <- sum_over_plus.
Qed.

Lemma gene_sum_ext names f g :
  (∀ one_gene two_genes,
     one_gene ⊆ names → two_genes ⊆ names ∖ one_gene →
     f one_gene two_genes = g one_gene two_genes) →
  gene_sum names f = gene_sum names g.
Proof.
  intros Hfg. unfold gene_sum.
  apply sum_over_ext. intros one_gene Hone%elem_of_powerset.
  apply sum_over_ext. intros two_genes Htwo%elem_of_powerset.
  by apply Hfg.
Qed.

Lemma gene_sum_plus names f g :
  gene_sum names (λ one_gene two_genes,
    f one_gene two_genes + g one_gene two_genes)
  = gene_sum names f + gene_sum names g.
Proof.
  unfold gene_sum. rewrite <- sum_over_plus.
  apply sum_over_ext. intros one_gene _. apply sum_over_plus.
Qed.

(** ** The enumeration covers the sample space *)

Lemma pedigree_ok_well_formed people : pedigree_ok people → well_formed people.
Proof.
  induction 1 as [|people person rec _ IH Hfresh Hrec].
  - intros k r. by rewrite lookup_empty.
  - assert (∀ r, is_root r ∨ has_parents (dom people) r →
                 is_root r ∨ has_parents (dom (<[person := rec]> people)) r)
      as Hmono.
    { intros r [?|Hp]; [by left|right]. unfold has_parents in *.
      destruct (person_mother r), (person_father r); try done.
      rewrite dom_insert_L. set_solver. }
    intros k r [[-> ->]|[_ Hk]]%lookup_insert_Some; apply Hmono; [done|].
    by apply (IH k).
Qed.

Lemma factor_ext model (c c' : string → gene_count) (t t' : string → bool)
    person rec :
  c person = c' person → t person = t' person →
  (∀ k, person_mother rec = Some k → c k = c' k) →
  (∀ k, person_father rec = Some k → c k = c' k) →
  factor model c t person rec = factor model c' t' person rec.
Proof.
  intros Hc Ht Hm Hf. unfold factor. rewrite Hc, Ht.
  destruct (person_mother rec) as [mo|]; [|done].
  destruct (person_father rec) as [fa|]; [|done].
  by rewrite (Hm mo), (Hf fa).
Qed.

(** The product only looks at the names of the pedigree. *)
Lemma joint_ext model people (c c' : string → gene_count)
    (t t' : string → bool) :
  well_formed people →
  (∀ k, k ∈ dom people → c k = c' k ∧ t k = t' k) →
  joint model people c t = joint model people c' t'.
Proof.
  intros Hwf Hag. unfold joint. f_equal. apply list_fmap_ext.
  intros _ [person rec] Hin%list_elem_of_lookup_2%elem_of_map_to_list.
  assert (person ∈ dom people) as Hp by (apply elem_of_dom; by eexists).
  apply factor_ext; try apply (Hag person Hp).
  - intros k Hk. destruct (Hwf person rec Hin) as [[Hm _]|Hpar];
      [congruence|].
    unfold has_parents in Hpar. rewrite Hk in Hpar.
    destruct (person_father rec); [|done].
    destruct Hpar as [Hk1 _]. by apply Hag.
  - intros k Hk. destruct (Hwf person rec Hin) as [[_ Hf]|Hpar];
      [congruence|].
    unfold has_parents in Hpar. rewrite Hk in Hpar.
    destruct (person_mother rec); [|done].
    destruct Hpar as [_ Hk2]. by apply Hag.
Qed.

Lemma joint_insert model people person rec c t :
  people !! person = None →
  joint model (<[person := rec]> people) c t
  = factor model c t person rec * joint model people c t.
Proof.
  intros Hfresh. unfold joint.
  rewrite (Qc_prod_Permutation _ _
             (fmap_Permutation _ _ _ (map_to_list_insert _ _ rec Hfresh))).
  reflexivity.
Qed.

Lemma joint_empty model c t : joint model ∅ c t = 1.
Proof. unfold joint. by rewrite map_to_list_empty. Qed.

(** The factors of a new individual, over its three gene counts and two
    trait values, sum to one. *)
Lemma factor_total model person rec names
    (c0 c1 c2 : string → gene_count) (t0 t1 : string → bool) (w : Qc) :
  model_ok model →
  is_root rec ∨ has_parents names rec →
  c0 person = C0 → c1 person = C1 → c2 person = C2 →
  (∀ k, k ∈ names → c1 k = c0 k ∧ c2 k = c0 k) →
  t0 person = false → t1 person = true →
  factor model c0 t0 person rec * w + factor model c2 t0 person rec * w
  + factor model c1 t0 person rec * w
  + (factor model c0 t1 person rec * w + factor model c2 t1 person rec * w
     + factor model c1 t1 person rec * w)
  = w.
Proof.
  intros [Hg Ht] Hrec H0 H1 H2 Hsame Ht0 Ht1. unfold factor.
  rewrite H0, H1, H2, Ht0, Ht1.
  destruct Hrec as [[-> ->]|Hpar].
  - transitivity
      (w * (genePrior model C0
              * (traitGivenGene model C0 true + traitGivenGene model C0 false)
            + genePrior model C1
              * (traitGivenGene model C1 true + traitGivenGene model C1 false)
            + genePrior model C2
              * (traitGivenGene model C2 true
                 + traitGivenGene model C2 false))); [ring|].
    rewrite !Ht. transitivity
      (w * (genePrior model C0 + genePrior model C1 + genePrior model C2));
      [ring|].
    rewrite Hg. ring.
  - unfold has_parents in Hpar.
    destruct (person_mother rec) as [mo|]; [|done].
    destruct (person_father rec) as [fa|]; [|done].
    destruct Hpar as [Hmo Hfa].
    destruct (Hsame mo Hmo) as [-> ->]. destruct (Hsame fa Hfa) as [-> ->].
    transitivity
      (w * (parent_derived model (c0 fa) (c0 mo) C0
              * (traitGivenGene model C0 true + traitGivenGene model C0 false)
            + parent_derived model (c0 fa) (c0 mo) C1
              * (traitGivenGene model C1 true + traitGivenGene model C1 false)
            + parent_derived model (c0 fa) (c0 mo) C2
              * (traitGivenGene model C2 true
                 + traitGivenGene model C2 false))); [ring|].
    rewrite !Ht. unfold parent_derived. ring.
Qed.

(** Over all trait sets and all gene sets the joint probabilities sum
    to one. *)
Lemma enumeration_total model people :
  model_ok model → pedigree_ok people →
  sum_over (powerset (dom people)) (λ have_trait,
    gene_sum (dom people) (λ one_gene two_genes,
      joint model people (hyp_gene one_gene two_genes)
        (hyp_trait have_trait)))
  = 1.
Proof.
  intros Hmodel. induction 1 as [|people x rec Hok IH Hfresh Hrec].
  - rewrite dom_empty_L, powerset_empty, sum_over_singleton.
    unfold gene_sum. rewrite powerset_empty, sum_over_singleton.
    replace (∅ ∖ ∅ : gset string) with (∅ : gset string) by set_solver.
    by rewrite powerset_empty, sum_over_singleton, joint_empty.
  - pose proof (pedigree_ok_well_formed _ Hok) as Hwf.
    assert (x ∉ dom people) as Hx by (by apply not_elem_of_dom).
    rewrite <- IH, dom_insert_L, sum_over_powerset_insert by done.
    apply sum_over_ext. intros T HT%elem_of_powerset.
    rewrite !gene_sum_insert, <- gene_sum_plus by done.
    apply gene_sum_ext. intros G1 G2 H1 H2.
    rewrite !joint_insert by done.
    assert (∀ G1' G2' T',
      (∀ k, k ≠ x → (k ∈ G1' ↔ k ∈ G1) ∧ (k ∈ G2' ↔ k ∈ G2) ∧
                     (k ∈ T' ↔ k ∈ T)) →
      joint model people (hyp_gene G1' G2') (hyp_trait T')
      = joint model people (hyp_gene G1 G2) (hyp_trait T)) as Hj.
    { intros G1' G2' T' Hsame. apply joint_ext; [done|].
      intros k Hk. assert (k ≠ x) as Hkx by (by intros ->).
      destruct (Hsame k Hkx) as (Hs1 & Hs2 & Hs3).
      unfold hyp_gene, hyp_trait. split.
      - by rewrite (decide_ext _ _ _ _ Hs1), (decide_ext _ _ _ _ Hs2).
      - by apply bool_decide_ext. }
    rewrite (Hj G1 ({[x]} ∪ G2) T), (Hj ({[x]} ∪ G1) G2 T),
      (Hj G1 G2 ({[x]} ∪ T)), (Hj G1 ({[x]} ∪ G2) ({[x]} ∪ T)),
      (Hj ({[x]} ∪ G1) G2 ({[x]} ∪ T)) by set_solver.
    assert ((x ∉ G1) ∧ (x ∉ G2) ∧ (x ∉ T)) as (Hx1 & Hx2 & Hx3)
      by set_solver.
    apply (factor_total model x rec (dom people)); try done.
    + unfold hyp_gene. by rewrite !decide_False.
    + unfold hyp_gene. rewrite decide_True; [done|set_solver].
    + unfold hyp_gene. rewrite decide_False by done.
      rewrite decide_True; [done|set_solver].
    + intros k Hk. assert (k ≠ x) as Hkx by (by intros ->).
      unfold hyp_gene. split.
      * apply decide_ext. set_solver.
      * destruct (decide (k ∈ G1)); [done|]. apply decide_ext. set_solver.
    + unfold hyp_trait. by apply bool_decide_eq_false.
    + unfold hyp_trait. apply bool_decide_eq_true. set_solver.
Qed.

Lemma mapM_total {A B} (f : A → option B) (g : A → B) l :
  (∀ x, f x = Some (g x)) → mapM f l = Some (g <$> l).
Proof.
  intros Hf. apply mapM_Some. induction l as [|x l IH]; cbn.
  - constructor.
  - by constructor.
Qed.

Lemma surviving_no_evidence people :
  no_evidence people → surviving people = powerset (dom people).
Proof.
  intros Hno. unfold surviving.
  assert (∀ T, agrees people T) as Hag.
  { intros T person rec Hrec. unfold agrees_on.
    by rewrite (Hno person rec Hrec). }
  induction (powerset (dom people)) as [|T l IH]; [done|].
  by rewrite filter_cons_True, IH by done.
Qed.

(** The sum of [joint_probability] over the enumerated hypotheses, on a
    well-formed pedigree. *)
Lemma total_mass_well_formed model people :
  well_formed people →
  total_mass model people
  = Some (sum_over (surviving people) (λ have_trait,
            gene_sum (dom people) (λ one_gene two_genes,
              joint model people (hyp_gene one_gene two_genes)
                (hyp_trait have_trait)))).
Proof.
  intros Hwf. unfold total_mass.
  rewrite enumerate_surviving, mbind_Some.
  rewrite (mapM_total _
    (λ h, joint model people
            (hyp_gene (hyp_one_gene h) (hyp_two_genes h))
            (hyp_trait (hyp_have_trait h))))
    by (intros h; by apply joint_probability_well_formed).
  rewrite mbind_Some. f_equal.
  change (Qc_sum (?f <$> ?l)) with (sum_over l f).
  rewrite sum_over_bind. apply sum_over_ext. intros T _.
  unfold gene_hypotheses, gene_sum. rewrite sum_over_bind.
  apply sum_over_ext. intros G1 _. rewrite sum_over_bind.
  apply sum_over_ext. intros G2 _. by rewrite sum_over_singleton.
Qed.

(** Without evidence, on a pedigree without cycles and without dangling
    references, the enumeration covers the whole sample space. *)
Lemma total_mass_no_evidence model people :
  model_ok model → pedigree_ok people → no_evidence people →
  total_mass model people = Some 1.
Proof.
  intros Hmodel Hok Hno.
  rewrite total_mass_well_formed by (by apply pedigree_ok_well_formed).
  rewrite surviving_no_evidence by done.
  by rewrite enumeration_total.
Qed.

Lemma PROBS_ok : model_ok PROBS.
Proof.
  split; [|intros []]; apply (bool_decide_unpack _); vm_compute; exact I.
Qed.

(** C4. Over exact rationals: for two individuals without recorded
    parents and one child whose recorded parents are among them, no trait
    being observed, the joint probabilities of all the enumerated
    hypotheses sum to 1.  (The binary64 numbers that the evaluator returns
    for them do not.) *)
Theorem three_person_enumeration_sums_to_one
    (a b c : string) (ra rb rc : person_record) :
  a ≠ b → c ≠ a → c ≠ b →
  is_root ra → is_root rb → has_parents {[a; b]} rc →
  person_trait ra = None → person_trait rb = None →
  person_trait rc = None →
  total_mass PROBS (<[c := rc]> (<[a := ra]> {[b := rb]})) = Some 1.
Proof.
  intros Hab Hca Hcb Hra Hrb Hrc Hta Htb Htc.
  apply total_mass_no_evidence.
  - apply PROBS_ok.
  - apply pedigree_insert; [apply pedigree_insert|..].
    + rewrite <- insert_empty. apply pedigree_insert;
        [constructor|apply lookup_empty|by left].
    + by rewrite lookup_singleton_ne.
    + by left.
    + rewrite lookup_insert_ne, lookup_singleton_ne by done. done.
    + right. by rewrite dom_insert_L, dom_singleton_L.
  - intros k r [[_ <-]|[_ [[_ <-]|[_ Hk]]%lookup_insert_Some]]
      %lookup_insert_Some; try done.
    by apply lookup_singleton_Some in Hk as [_ <-].
Qed.

Lemma three_person_enumeration_sums_to_one_witness :
  let root t := {| person_name := t; person_mother := None;
                   person_father := None; person_trait := None |} in
  let child := {| person_name := "Harry"; person_mother := Some "Lily";
                  person_father := Some "James"; person_trait := None |} in
  total_mass PROBS
    (<["Harry" := child]> (<["James" := root "James"]>
       {["Lily" := root "Lily"]}))
  = Some 1.
Proof.
  intros root child.
  apply (three_person_enumeration_sums_to_one "James" "Lily" "Harry");
    try discriminate; try (split; reflexivity); reflexivity.
Defined.

(** C4, in binary64.  For the file with the rows [James,,,], [Lily,,,]
    and [Harry,Lily,James,] the evaluator returns 216 numbers.  Added
    from the left they give [0.9999999999999989], added from the right
    [0.9999999999999998]; added without any rounding they give
    [1 - 147889293233 / 2^89].  None of the three is 1. *)
Lemma three_person_sum_is_not_one :
  let ps := Binary64.joint_probabilities (load_data three_person_rows) in
  keys (load_data three_person_rows) = row_name <$> three_person_rows ∧
  length <$> ps = Some 216%nat ∧
  Binary64.py_sum <$> ps = Some 0.9999999999999989%float ∧
  foldr PrimFloat.add 0%float <$> ps = Some 0.9999999999999998%float ∧
  ps ≫= Binary64.exact_sum = Some (1 - 147889293233 / 2 ^ 89)%Q ∧
  Binary64.py_sum <$> ps ≠ Some 1%float.
Proof.
  intros ps.
  assert (Binary64.py_sum <$> ps = Some 0.9999999999999989%float) as Hsum
    by (vm_compute; reflexivity).
  split; [vm_compute; reflexivity|]. split; [vm_compute; reflexivity|].
  split; [exact Hsum|]. split; [vm_compute; reflexivity|].
  split; [vm_compute; reflexivity|].
  rewrite Hsum. intros H.
  apply (f_equal (from_option (λ x, PrimFloat.eqb x 1%float) false)) in H.
  vm_compute in H. discriminate H.
Qed.

(** The same sum, evaluated: 216 calls of [joint_probability]. *)
Example total_mass_evaluated :
  total_mass PROBS
    (<["Harry" := {| person_name := "Harry"; person_mother := Some "Lily";
                     person_father := Some "James"; person_trait := None |}]>
       (<["James" := {| person_name := "James"; person_mother := None;
                        person_father := None; person_trait := None |}]>
          {["Lily" := {| person_name := "Lily"; person_mother := None;
                         person_father := None; person_trait := None |}]}))
  = Some 1.
Proof. apply (bool_decide_unpack _). vm_compute. exact I. Qed.

(** ** The posterior table *)

Lemma evaluate_and_update_well_formed model people probabilities h :
  well_formed people →
  evaluate_and_update model people probabilities h
  = Some (update probabilities (hyp_one_gene h) (hyp_two_genes h)
            (hyp_have_trait h)
            (joint model people
               (hyp_gene (hyp_one_gene h) (hyp_two_genes h))
               (hyp_trait (hyp_have_trait h)))).
Proof.
  intros Hwf. unfold evaluate_and_update.
  by rewrite joint_probability_well_formed.
Qed.

Lemma accumulate_updates model people :
  well_formed people →
  accumulate model people
  = Some (updates (initial people)
            ((λ h, (h, joint model people
                         (hyp_gene (hyp_one_gene h) (hyp_two_genes h))
                         (hyp_trait (hyp_have_trait h))))
               <$> (surviving people ≫= gene_hypotheses (dom people)))).
Proof.
  intros Hwf. rewrite accumulate_enumerate.
  generalize (initial people).
  induction (surviving people ≫= gene_hypotheses (dom people))
    as [|h hs IH]; intros probs; [done|].
  cbn [for_each]. rewrite evaluate_and_update_well_formed by done.
  rewrite mbind_Some. apply IH.
Qed.

Lemma update_entry_hyp one_gene two_genes have_trait p person e :
  update_entry one_gene two_genes have_trait p person e
  = let c := hyp_gene one_gene two_genes person in
    let t := hyp_trait have_trait person in
    let e := set_gene c (get_gene c e + p) e in
    set_trait t (get_trait t e + p) e.
Proof.
  unfold update_entry, hyp_gene, hyp_trait. cbn zeta.
  destruct (decide (person ∈ have_trait)) as [Ht|Ht];
    [rewrite (bool_decide_eq_true_2 _ Ht)
    |rewrite (bool_decide_eq_false_2 _ Ht)];
    repeat case_decide; reflexivity.
Qed.

Lemma updates_lookup probabilities calls person :
  updates probabilities calls !! person
  = (λ e, foldl (λ e '(h, p),
                   update_entry (hyp_one_gene h) (hyp_two_genes h)
                     (hyp_have_trait h) p person e) e calls)
      <$> probabilities !! person.
Proof.
  revert probabilities.
  induction calls as [|[h p] calls IH]; intros probabilities.
  - cbn. by destruct (probabilities !! person).
  - cbn [updates foldl]. unfold updates in IH. rewrite IH, update_lookup.
    by destruct (probabilities !! person).
Qed.

Lemma powerset_singleton a : powerset {[a]} = [∅; {[a]}].
Proof.
  rewrite powerset_powerset_list, elements_singleton.
  cbn. by rewrite union_empty_r_L.
Qed.

Lemma gene_hypotheses_singleton a have_trait :
  gene_hypotheses {[a]} have_trait
  = [ {| hyp_one_gene := ∅; hyp_two_genes := ∅;
         hyp_have_trait := have_trait |};
      {| hyp_one_gene := ∅; hyp_two_genes := {[a]};
         hyp_have_trait := have_trait |};
      {| hyp_one_gene := {[a]}; hyp_two_genes := ∅;
         hyp_have_trait := have_trait |} ].
Proof.
  unfold gene_hypotheses. rewrite powerset_singleton.
  rewrite bind_cons, bind_singleton.
  rewrite difference_empty_L, difference_diag_L.
  rewrite powerset_singleton, powerset_empty. reflexivity.
Qed.

Lemma hyp_gene_singleton a :
  hyp_gene ∅ ∅ a = C0 ∧ hyp_gene ∅ {[a]} a = C2 ∧ hyp_gene {[a]} ∅ a = C1.
Proof.
  unfold hyp_gene. split; [|split].
  - by rewrite !decide_False by set_solver.
  - rewrite decide_False by set_solver. rewrite decide_True; set_solver.
  - rewrite decide_True; set_solver.
Qed.

Lemma hyp_trait_singleton a :
  hyp_trait ∅ a = false ∧ hyp_trait {[a]} a = true.
Proof.
  unfold hyp_trait. split.
  - apply bool_decide_eq_false. set_solver.
  - apply bool_decide_eq_true. set_solver.
Qed.

(** Over exact rationals: for a single individual without recorded
    parents and without observed trait, enumeration, accumulation and
    normalisation give the gene prior: 0.96 for no copy, 0.03 for one
    copy, 0.01 for two. *)
Theorem single_individual_gene_posterior (a : string) (rec : person_record) :
  is_root rec → person_trait rec = None →
  ∃ probabilities e,
    posterior PROBS {[a := rec]} = Some probabilities ∧
    probabilities !! a = Some e ∧
    get_gene C0 e = Q2Qc 0.96 ∧ get_gene C1 e = Q2Qc 0.03 ∧
    get_gene C2 e = Q2Qc 0.01.
Proof.
  intros Hroot Htrait.
  assert (well_formed {[a := rec]}) as Hwf.
  { intros k r [_ <-]%lookup_singleton_Some. by left. }
  assert (no_evidence {[a := rec]}) as Hno.
  { by intros k r [_ <-]%lookup_singleton_Some. }
  unfold posterior. rewrite accumulate_updates by done.
  rewrite mbind_Some. eexists _, _. split; [reflexivity|].
  rewrite normalize_lookup, updates_lookup. unfold initial.
  rewrite lookup_fmap, lookup_singleton_eq. cbn [fmap option_fmap option_map].
  split; [reflexivity|].
  rewrite surviving_no_evidence, dom_singleton_L, powerset_singleton by done.
  rewrite bind_cons, bind_singleton, !gene_hypotheses_singleton.
  cbn [app fmap list_fmap foldl hyp_one_gene hyp_two_genes hyp_have_trait].
  rewrite !update_entry_hyp. unfold joint.
  rewrite map_to_list_singleton. cbn [fmap list_fmap]. unfold factor.
  destruct Hroot as [-> ->].
  destruct (hyp_gene_singleton a) as (-> & -> & ->).
  destruct (hyp_trait_singleton a) as (-> & ->).
  repeat split; apply (bool_decide_unpack _); vm_compute; exact I.
Qed.

Lemma single_individual_gene_posterior_witness :
  ∃ probabilities e,
    posterior PROBS
      {[ "A" := {| person_name := "A"; person_mother := None;
                   person_father := None; person_trait := None |} ]}
    = Some probabilities ∧
    probabilities !! "A" = Some e ∧
    get_gene C0 e = Q2Qc 0.96 ∧ get_gene C1 e = Q2Qc 0.03 ∧
    get_gene C2 e = Q2Qc 0.01.
Proof.
  apply (single_individual_gene_posterior "A"); [split|]; reflexivity.
Defined.

(** ** The posterior of a single individual in binary64 *)

Lemma binary64_update_entry_hyp one_gene two_genes have_trait p person e :
  Binary64.update_entry one_gene two_genes have_trait p person e
  = let c := hyp_gene one_gene two_genes person in
    let t := hyp_trait have_trait person in
    let e := Binary64.set_gene c (Binary64.get_gene c e + p)%float e in
    Binary64.set_trait t (Binary64.get_trait t e + p)%float e.
Proof.
  unfold Binary64.update_entry, hyp_gene, hyp_trait. cbn zeta.
  destruct (decide (person ∈ have_trait)) as [Ht|Ht];
    [rewrite (bool_decide_eq_true_2 _ Ht)
    |rewrite (bool_decide_eq_false_2 _ Ht)];
    repeat case_decide; reflexivity.
Qed.

Lemma binary64_joint_probability_singleton a rec one_gene two_genes
    have_trait :
  is_root rec →
  Binary64.joint_probability {[a := rec]} one_gene two_genes have_trait
  = Some (1 * (Binary64.probs_gene Binary64.PROBS
                 (hyp_gene one_gene two_genes a)
               * Binary64.probs_trait Binary64.PROBS
                   (hyp_gene one_gene two_genes a)
                   (hyp_trait have_trait a)))%float.
Proof.
  intros Hroot. unfold Binary64.joint_probability.
  pose proof (parse_hypothesis_genes {[a := rec]} one_gene two_genes
                have_trait a) as Hg.
  pose proof (parse_hypothesis_trait {[a := rec]} one_gene two_genes
                have_trait a) as Ht.
  rewrite lookup_singleton_eq in Hg, Ht.
  destruct (parse_hypothesis _ _ _ _) as [genes trait].
  cbn [fst snd fmap option_fmap option_map] in Hg, Ht.
  rewrite map_to_list_singleton. cbn [for_each].
  unfold Binary64.person_p. rewrite decide_True by done.
  rewrite Hg, Ht. rewrite !mbind_Some.
  rewrite insert_empty, map_to_list_singleton. reflexivity.
Qed.

(** C5. For a single individual without recorded parents and without
    observed trait, whatever its name, the program (enumeration,
    accumulation and normalisation in binary64) gives the gene
    distribution 0.96 for no copy, 0.030000000000000002 for one copy and
    0.01 for two: the gene prior up to one rounding error, in the bucket
    of one copy. *)
Theorem single_individual_gene_posterior_binary64 (a : string)
    (rec : person_record) :
  is_root rec → person_trait rec = None →
  ∃ probabilities e,
    Binary64.posterior {[a := rec]} = Some probabilities ∧
    probabilities !! a = Some e ∧
    Binary64.get_gene C0 e = 0.96%float ∧
    Binary64.get_gene C1 e = 0.030000000000000002%float ∧
    Binary64.get_gene C2 e = 0.01%float.
Proof.
  intros Hroot Htrait.
  assert (no_evidence {[a := rec]}) as Hno.
  { by intros k r [_ <-]%lookup_singleton_Some. }
  unfold Binary64.posterior. rewrite binary64_accumulate_enumerate.
  rewrite surviving_no_evidence, dom_singleton_L, powerset_singleton by done.
  rewrite bind_cons, bind_singleton, !gene_hypotheses_singleton.
  cbn [app for_each]. unfold Binary64.evaluate_and_update.
  cbn [hyp_one_gene hyp_two_genes hyp_have_trait].
  rewrite !binary64_joint_probability_singleton by done.
  rewrite !mbind_Some.
  eexists _, _. split; [reflexivity|].
  rewrite binary64_normalize_lookup, !binary64_update_lookup.
  unfold Binary64.initial. rewrite lookup_fmap, lookup_singleton_eq.
  cbn [fmap option_fmap option_map]. split; [reflexivity|].
  rewrite !binary64_update_entry_hyp.
  destruct (hyp_gene_singleton a) as (-> & -> & ->).
  destruct (hyp_trait_singleton a) as (-> & ->).
  split; [|split]; vm_compute; reflexivity.
Qed.

Lemma single_individual_gene_posterior_binary64_witness :
  ∃ probabilities e,
    Binary64.posterior
      {[ "A" := {| person_name := "A"; person_mother := None;
                   person_father := None; person_trait := None |} ]}
    = Some probabilities ∧
    probabilities !! "A" = Some e ∧
    Binary64.get_gene C0 e = 0.96%float ∧
    Binary64.get_gene C1 e = 0.030000000000000002%float ∧
    Binary64.get_gene C2 e = 0.01%float.
Proof.
  apply (single_individual_gene_posterior_binary64 "A");
    [split|]; reflexivity.
Defined.

(** C5, as the claim has it.  On the file with the single row [A,,,]
    the bucket of one copy is [0.030000000000000002], which is not the
    prior [0.03] of the table. *)
Lemma single_individual_posterior_is_not_the_prior :
  ∃ probabilities e,
    Binary64.main one_person_rows = Some probabilities ∧
    probabilities !! "A" = Some e ∧
    Binary64.get_gene C1 e = 0.030000000000000002%float ∧
    Binary64.get_gene C1 e ≠ Binary64.probs_gene Binary64.PROBS C1.
Proof.
  eexists _, _. split; [reflexivity|]. split; [vm_compute; reflexivity|].
  split; [vm_compute; reflexivity|].
  intros H. apply (f_equal (λ x, PrimFloat.eqb x 0.03%float)) in H.
  vm_compute in H. discriminate H.
Qed.

(** * Further properties of the code *)

(** ** [powerset] *)

(** X1. [powerset] (lines 117-126) lists exactly the subsets of its
    argument. *)
Theorem powerset_lists_the_subsets (s T : gset string) :
  T ∈ powerset s ↔ T ⊆ s.
Proof. apply elem_of_powerset. Qed.

Lemma powerset_list_NoDup l : NoDup l → NoDup (powerset_list l).
Proof.
  induction l as [|x l IH]; intros Hnd.
  - cbn. apply NoDup_singleton.
  - apply list.NoDup_cons in Hnd as [Hx Hnd].
    rewrite powerset_list_cons. apply list.NoDup_app. split; [|split].
    + apply NoDup_fmap_2_strong; [|by apply IH].
      intros T1 T2 H1%elem_of_powerset_list H2%elem_of_powerset_list Heq.
      assert (x ∉ (list_to_set l : gset string))
        by (by rewrite elem_of_list_to_set).
      apply set_eq. intros y. destruct (decide (y = x)) as [->|Hy].
      * set_solver.
      * assert (y ∈ {[x]} ∪ T1 ↔ y ∈ {[x]} ∪ T2) as Hiff by (by rewrite Heq).
        set_solver.
    + intros T (T' & -> & _)%list_elem_of_fmap HT%elem_of_powerset_list.
      apply Hx. apply (elem_of_list_to_set (C := gset string)). set_solver.
    + by apply IH.
Qed.

Lemma powerset_list_length l :
  length (powerset_list l) = (2 ^ length l)%nat.
Proof.
  induction l as [|x l IH]; [done|].
  rewrite (Permutation_length (powerset_list_cons x l)).
  rewrite length_app, length_fmap, IH. cbn. lia.
Qed.

(** X2. [powerset] lists every subset once: a set of [n] elements gives
    [2^n] sets, all different. *)
Theorem powerset_has_no_duplicates (s : gset string) :
  NoDup (powerset s) ∧ length (powerset s) = (2 ^ size s)%nat.
Proof.
  rewrite powerset_powerset_list. split.
  - apply powerset_list_NoDup, NoDup_elements.
  - apply powerset_list_length.
Qed.

(** ** [load_data] *)

Lemma load_data_snoc rows r :
  load_data (rows ++ [r]) = <[row_name r := row_record r]> (load_data rows).
Proof. unfold load_data. by rewrite foldl_snoc. Qed.

Lemma load_data_lookup rows k :
  load_data rows !! k = row_record <$> list.last (rows_named k rows).
Proof.
  unfold rows_named. induction rows as [|r rows IH] using rev_ind.
  - done.
  - rewrite load_data_snoc, list.filter_app.
    destruct (decide (row_name r = k)) as [<-|Hne].
    + rewrite lookup_insert_eq, filter_cons_True, filter_nil by done.
      by rewrite last_snoc.
    + rewrite lookup_insert_ne, filter_cons_False, filter_nil by done.
      by rewrite app_nil_r.
Qed.

Lemma load_data_record rows k rec :
  load_data rows !! k = Some rec →
  ∃ r, r ∈ rows ∧ row_name r = k ∧ rec = row_record r.
Proof.
  rewrite load_data_lookup. intros (r & Hr & ->)%fmap_Some.
  apply last_Some in Hr as [l Hl].
  assert (r ∈ rows_named k rows) as Hin
    by (rewrite Hl; apply elem_of_app; right; by apply list_elem_of_singleton).
  apply list_elem_of_filter in Hin as [<- Hin]. by exists r.
Qed.

Lemma load_data_dom rows k :
  k ∈ dom (load_data rows) ↔ k ∈ row_names rows.
Proof.
  rewrite elem_of_dom. unfold row_names. rewrite list_elem_of_fmap. split.
  - intros [rec (r & Hin & <- & _)%load_data_record]. by exists r.
  - intros (r & -> & Hin). rewrite load_data_lookup.
    assert (r ∈ rows_named (row_name r) rows) as Hf
      by (by apply list_elem_of_filter).
    destruct (rows_named (row_name r) rows) as [|r0 l _] using rev_ind;
      [by apply not_elem_of_nil in Hf|].
    rewrite last_snoc. by eexists.
Qed.

(** X3. [load_data] (lines 95-114) keeps, for every name, the record of the
    last row of that name and nothing else: its keys are the names of the
    rows, and an earlier row of the same name is dropped without an
    error. *)
Theorem load_data_keeps_last_row (rows : list row) (k : string) :
  load_data rows !! k = row_record <$> list.last (rows_named k rows) ∧
  (k ∈ dom (load_data rows) ↔ k ∈ row_names rows).
Proof. split; [apply load_data_lookup|apply load_data_dom]. Qed.

(** X4. Every record that [load_data] stores comes from a row of its key:
    its name field is its key, and a blank parent column has become
    [None], never the empty name. *)
Theorem load_data_records (rows : list row) (k : string)
    (rec : person_record) :
  load_data rows !! k = Some rec →
  person_name rec = k ∧
  person_mother rec ≠ Some "" ∧ person_father rec ≠ Some "" ∧
  ∃ r, r ∈ rows ∧ rec = row_record r.
Proof.
  intros (r & Hin & <- & ->)%load_data_record.
  split; [done|]. unfold row_record, parse_parent. cbn.
  repeat split; try (case_decide; congruence). by exists r.
Qed.

Lemma load_data_records_witness :
  let rows := [ {| row_name := "Harry"; row_mother := "Lily";
                   row_father := ""; row_trait := "" |} ] in
  ∃ rec, load_data rows !! "Harry" = Some rec ∧ person_name rec = "Harry" ∧
         person_father rec ≠ Some "".
Proof.
  intros rows. eexists. split; [reflexivity|].
  destruct (load_data_records rows "Harry" _ eq_refl) as (H1 & _ & H3 & _).
  split; [exact H1|exact H3].
Defined.

Lemma row_ok_well_formed rows :
  (∀ r, r ∈ rows → row_ok rows r) → well_formed (load_data rows).
Proof.
  intros Hok k rec (r & Hin & <- & ->)%load_data_record.
  assert (∀ n, n ∈ row_names rows → n ∈ dom (load_data rows)) as Hdom
    by (intros n; apply load_data_dom).
  unfold is_root, has_parents, row_record, parse_parent. cbn.
  destruct (Hok r Hin) as [[-> ->]|(Hm & Hf & Hmn & Hfn)].
  - left. by rewrite !decide_True.
  - right. rewrite !decide_False by done. split; by apply Hdom.
Qed.

(** X5. When every row meets the constraint of the docstring of [load_data]
    (both parents blank, or both names of the file), [main] raises no
    [KeyError] and produces a table, whether or not names repeat. *)
Theorem main_returns_a_table (model : probs) (rows : list row) :
  (∀ r, r ∈ rows → row_ok rows r) →
  well_formed (load_data rows) ∧ is_Some (main model rows).
Proof.
  intros Hok. pose proof (row_ok_well_formed rows Hok) as Hwf.
  split; [done|]. unfold main, posterior.
  destruct (accumulate_well_formed model _ Hwf) as [probs ->]. by eexists.
Qed.

Lemma main_returns_a_table_witness :
  let rows := [ {| row_name := "Lily"; row_mother := ""; row_father := "";
                   row_trait := "0" |};
                {| row_name := "James"; row_mother := ""; row_father := "";
                   row_trait := "1" |};
                {| row_name := "Harry"; row_mother := "Lily";
                   row_father := "James"; row_trait := "" |} ] in
  well_formed (load_data rows) ∧ is_Some (main PROBS rows).
Proof.
  intros rows. apply main_returns_a_table.
  intros r Hr. unfold row_ok.
  repeat (apply elem_of_cons in Hr as [->|Hr]);
    [left; split; reflexivity | left; split; reflexivity | right |
     by apply not_elem_of_nil in Hr].
  repeat split; try discriminate; apply (bool_decide_unpack _);
    vm_compute; exact I.
Defined.

(** ** [update] *)

Lemma update_entry_comm o1 t1 h1 p1 o2 t2 h2 p2 person e :
  update_entry o2 t2 h2 p2 person (update_entry o1 t1 h1 p1 person e)
  = update_entry o1 t1 h1 p1 person (update_entry o2 t2 h2 p2 person e).
Proof.
  rewrite !update_entry_hyp. cbn zeta. destruct e as [[g2 g1 g0] [tt tf]].
  destruct (hyp_gene o1 t1 person), (hyp_gene o2 t2 person),
    (hyp_trait h1 person), (hyp_trait h2 person);
    unfold set_gene, set_trait, get_gene, get_trait; cbn;
    f_equal; f_equal; ring.
Qed.

(** X6. The order in which two hypotheses are accumulated does not matter,
    and [update] (lines 190-213) neither adds nor removes a person. *)
Theorem update_order_irrelevant (probabilities : gmap string entry)
    (o1 t1 h1 o2 t2 h2 : gset string) (p1 p2 : Qc) :
  update (update probabilities o1 t1 h1 p1) o2 t2 h2 p2
  = update (update probabilities o2 t2 h2 p2) o1 t1 h1 p1 ∧
  dom (update probabilities o1 t1 h1 p1) = dom probabilities.
Proof.
  split.
  - apply map_eq. intros person. rewrite !update_lookup.
    destruct (probabilities !! person) as [e|]; [|done]. cbn.
    by rewrite update_entry_comm.
  - apply set_eq. intros person. rewrite !elem_of_dom, update_lookup.
    by rewrite fmap_is_Some.
Qed.

(** ** [normalize] *)

Lemma Qcdiv_1_r (x : Qc) : x / 1 = x.
Proof. by field. Qed.

Lemma normalize_entry_idempotent e :
  normalize_entry (normalize_entry e) = normalize_entry e.
Proof.
  destruct (decide (gene_total e = 0)) as [Hz|Hnz].
  - by rewrite !(normalize_entry_gene_zero e Hz).
  - pose proof (normalize_entry_gene_total e Hnz) as H1.
    remember (normalize_entry e) as e' eqn:He'. clear He' Hnz e.
    unfold normalize_entry. rewrite H1.
    rewrite decide_False by (by apply (bool_decide_unpack _)).
    destruct e' as [[g2 g1 g0] [tt tf]].
    unfold set_gene, set_trait, get_gene, get_trait. cbn.
    rewrite !Qcdiv_1_r. by case_decide.
Qed.

(** X7. [normalize] (lines 215-241) is idempotent and keeps the people of
    the table. *)
Theorem normalize_idempotent (probabilities : gmap string entry) :
  normalize (normalize probabilities) = normalize probabilities ∧
  dom (normalize probabilities) = dom probabilities.
Proof.
  split.
  - apply map_eq. intros person. rewrite !normalize_lookup.
    destruct (probabilities !! person) as [e|]; [|done]. cbn.
    by rewrite normalize_entry_idempotent.
  - apply set_eq. intros person. rewrite !elem_of_dom, normalize_lookup.
    by rewrite fmap_is_Some.
Qed.

(** X8. Over exact rationals: for a person whose gene buckets do not sum
    to zero, [normalize] divides each gene bucket by their sum, so that
    they sum to 1; a person whose gene buckets sum to zero is left as it
    is, trait buckets included. *)
Theorem normalize_gene_distribution (probabilities : gmap string entry)
    (person : string) (e : entry) :
  probabilities !! person = Some e →
  ∃ e', normalize probabilities !! person = Some e' ∧
    (gene_total e ≠ 0 →
     gene_total e' = 1 ∧ ∀ c, get_gene c e' = get_gene c e / gene_total e) ∧
    (gene_total e = 0 → e' = e).
Proof.
  intros He. exists (normalize_entry e).
  rewrite normalize_lookup, He. split; [done|]. split.
  - intros Hnz. split; [by apply normalize_entry_gene_total|].
    intros c. by apply normalize_entry_gene.
  - apply normalize_entry_gene_zero.
Qed.

Lemma normalize_gene_distribution_witness :
  let e := {| entry_gene := {| gene_2 := 1; gene_1 := 1; gene_0 := 2 |};
              entry_trait := {| trait_True := 1; trait_False := Q2Qc 3 |} |} in
  ∃ e', normalize {[ "A" := e ]} !! "A" = Some e' ∧ gene_total e' = 1.
Proof.
  intros e.
  destruct (normalize_gene_distribution {[ "A" := e ]} "A" e)
    as (e' & He' & Hnz & _); [reflexivity|].
  exists e'. split; [exact He'|]. apply Hnz.
  apply (bool_decide_unpack _). vm_compute. exact I.
Defined.

(** ** [joint_probability] *)

Lemma parse_hypothesis_ext people o t h o' t' h' :
  (∀ k, k ∈ dom people →
     hyp_gene o t k = hyp_gene o' t' k ∧ hyp_trait h k = hyp_trait h' k) →
  parse_hypothesis people o t h = parse_hypothesis people o' t' h'.
Proof.
  intros Hsame.
  destruct (parse_hypothesis people o t h) as [g1 t1] eqn:E1.
  destruct (parse_hypothesis people o' t' h') as [g2 t2] eqn:E2.
  f_equal; apply map_eq; intros k.
  - change g1 with (g1, t1).1. change g2 with (g2, t2).1.
    rewrite <- E1, <- E2, !parse_hypothesis_genes.
    destruct (people !! k) as [rec|] eqn:Hk; [|done]. cbn. f_equal.
    apply Hsame, elem_of_dom. by eexists.
  - change t1 with (g1, t1).2. change t2 with (g2, t2).2.
    rewrite <- E1, <- E2, !parse_hypothesis_trait.
    destruct (people !! k) as [rec|] eqn:Hk; [|done]. cbn. f_equal.
    apply Hsame, elem_of_dom. by eexists.
Qed.

(** X9. [joint_probability] only looks at the members of its three sets that
    are names of the pedigree: names outside the pedigree are ignored,
    without an error. *)
Theorem joint_probability_ignores_strangers (model : probs)
    (people : gmap string person_record)
    (one_gene two_genes have_trait : gset string) :
  joint_probability model people one_gene two_genes have_trait
  = joint_probability model people (one_gene ∩ dom people)
      (two_genes ∩ dom people) (have_trait ∩ dom people).
Proof.
  unfold joint_probability.
  rewrite (parse_hypothesis_ext people one_gene two_genes have_trait
             (one_gene ∩ dom people) (two_genes ∩ dom people)
             (have_trait ∩ dom people)); [done|].
  intros k Hk. unfold hyp_gene, hyp_trait. split.
  - rewrite (decide_ext (k ∈ one_gene ∩ dom people) (k ∈ one_gene))
      by set_solver.
    by rewrite (decide_ext (k ∈ two_genes ∩ dom people) (k ∈ two_genes))
      by set_solver.
  - apply bool_decide_ext. set_solver.
Qed.

(** X10. On the empty pedigree the evaluator returns the empty product 1, and
    [main] on a file without rows returns the empty table. *)
Theorem empty_pedigree (model : probs)
    (one_gene two_genes have_trait : gset string) :
  joint_probability model ∅ one_gene two_genes have_trait = Some 1 ∧
  main model [] = Some ∅.
Proof.
  assert (well_formed ∅) as Hwf by (intros k r; by rewrite lookup_empty).
  split.
  - by rewrite joint_probability_well_formed, joint_empty.
  - unfold main, posterior. cbn [load_data foldl].
    rewrite accumulate_updates, mbind_Some by done. apply (f_equal Some).
    apply map_eq. intros k.
    rewrite normalize_lookup, updates_lookup. unfold initial.
    by rewrite lookup_fmap, !lookup_empty.
Qed.

Lemma Qc_one_minus_pos (x : Qc) : x < 1 → 0 < 1 - x.
Proof. intros H. by apply Qclt_minus_iff in H. Qed.

Lemma Qc_one_minus_lt (x : Qc) : 0 < x → 1 - x < 1.
Proof.
  intros H. apply Qclt_minus_iff.
  replace (1 + - (1 - x)) with x by ring. done.
Qed.

Lemma transmits_bounds model c :
  model_positive model →
  0 < transmits model c ∧ 0 < 1 - transmits model c.
Proof.
  intros (_ & _ & Hm0 & Hm1). unfold transmits, mutationRate.
  destruct c; split; try done.
  - by apply Qc_one_minus_pos.
  - by apply Qc_one_minus_pos.
  - replace (1 - (1 - probs_mutation model)) with (probs_mutation model)
      by ring. done.
Qed.

Lemma parent_derived_pos model cf cm c :
  model_positive model → 0 < parent_derived model cf cm c.
Proof.
  intros Hpos. unfold parent_derived.
  destruct (transmits_bounds model cf Hpos) as [Hf Hf'].
  destruct (transmits_bounds model cm Hpos) as [Hm Hm'].
  destruct c.
  - by apply Qcmult_pos_pos.
  - apply Qcplus_pos_pos; by apply Qcmult_pos_pos.
  - by apply Qcmult_pos_pos.
Qed.

Lemma parent_derived_total model cf cm :
  parent_derived model cf cm C0 + parent_derived model cf cm C1
  + parent_derived model cf cm C2 = 1.
Proof. unfold parent_derived. ring. Qed.

(** One of three positive numbers that sum to 1 is at most 1. *)
Lemma Qc_part_le (x y : Qc) : 0 < y → x ≤ x + y.
Proof.
  intros Hy. rewrite <- (Qcplus_0_r x) at 1.
  apply Qcplus_le_mono_l. by apply Qclt_le_weak.
Qed.

Lemma Qc_three_parts (x y z : Qc) :
  0 < x → 0 < y → 0 < z → x + y + z = 1 → x ≤ 1 ∧ y ≤ 1 ∧ z ≤ 1.
Proof.
  intros Hx Hy Hz Hs. repeat split.
  - rewrite <- Hs, <- Qcplus_assoc. apply Qc_part_le.
    by apply Qcplus_pos_pos.
  - replace 1 with (y + (x + z)) by (rewrite <- Hs; ring).
    apply Qc_part_le. by apply Qcplus_pos_pos.
  - replace 1 with (z + (x + y)) by (rewrite <- Hs; ring).
    apply Qc_part_le. by apply Qcplus_pos_pos.
Qed.

Lemma is_probability_mult (p q : Qc) :
  is_probability p → is_probability q → is_probability (p * q).
Proof.
  intros [Hp0 Hp1] [Hq0 Hq1]. split; [by apply Qcmult_pos_pos|].
  apply Qcle_trans with (1 * q); [|by rewrite Qcmult_1_l].
  apply Qcmult_le_mono_nonneg_r; [by apply Qclt_le_weak|done].
Qed.

Lemma factor_is_probability model c t person rec names :
  model_positive model → model_ok model →
  is_root rec ∨ has_parents names rec →
  is_probability (factor model c t person rec).
Proof.
  intros Hpos [Hg Ht] Hrec.
  pose proof Hpos as (Hg0 & Ht0 & _).
  assert (∀ c b, is_probability (traitGivenGene model c b)) as Htrait.
  { intros c' b. split; [apply Ht0|]. unfold traitGivenGene.
    specialize (Ht c'). unfold traitGivenGene in Ht. destruct b.
    - rewrite <- Ht. apply Qc_part_le, Ht0.
    - rewrite <- Ht, Qcplus_comm. apply Qc_part_le, Ht0. }
  unfold factor. destruct Hrec as [[-> ->]|Hpar].
  - apply is_probability_mult; [|apply Htrait].
    split; [apply Hg0|]. unfold genePrior in *.
    destruct (Qc_three_parts _ _ _ (Hg0 C0) (Hg0 C1) (Hg0 C2) Hg)
      as (? & ? & ?). by destruct (c person).
  - unfold has_parents in Hpar.
    destruct (person_mother rec) as [mo|]; [|done].
    destruct (person_father rec) as [fa|]; [|done].
    apply is_probability_mult; [|apply Htrait].
    split; [by apply parent_derived_pos|].
    destruct (Qc_three_parts _ _ _
                (parent_derived_pos model (c fa) (c mo) C0 Hpos)
                (parent_derived_pos model (c fa) (c mo) C1 Hpos)
                (parent_derived_pos model (c fa) (c mo) C2 Hpos)
                (parent_derived_total model (c fa) (c mo))) as (? & ? & ?).
    by destruct (c person).
Qed.

Lemma Qc_prod_is_probability l :
  Forall is_probability l → is_probability (Qc_prod l).
Proof.
  induction 1 as [|x l Hx _ IH]; unfold Qc_prod; cbn [foldr].
  - split; [done|]. apply Qcle_refl.
  - by apply is_probability_mult.
Qed.

Lemma joint_is_probability model people c t :
  model_positive model → model_ok model → well_formed people →
  is_probability (joint model people c t).
Proof.
  intros Hpos Hok Hwf. unfold joint. apply Qc_prod_is_probability.
  apply Forall_fmap, Forall_forall.
  intros [person rec] Hin%list_elem_of_In%elem_of_map_to_list. cbn.
  eapply factor_is_probability; [done|done|]. by eapply Hwf.
Qed.

(** X11. Over exact rationals: with a table of strictly positive
    probabilities whose distributions sum to 1 and a mutation rate
    strictly between 0 and 1, the evaluator returns, on a well-formed
    pedigree, a number that is strictly positive and at most 1, for every
    hypothesis. *)
Theorem joint_probability_bounds (model : probs)
    (people : gmap string person_record)
    (one_gene two_genes have_trait : gset string) :
  model_positive model → model_ok model → well_formed people →
  ∃ p, joint_probability model people one_gene two_genes have_trait = Some p
       ∧ 0 < p ∧ p ≤ 1.
Proof.
  intros Hpos Hok Hwf. eexists. split.
  - by apply joint_probability_well_formed.
  - by apply joint_is_probability.
Qed.

Lemma PROBS_positive : model_positive PROBS.
Proof.
  repeat split; try intros []; try intros [];
    apply (bool_decide_unpack _); vm_compute; exact I.
Qed.

Lemma joint_probability_bounds_witness :
  ∃ p, joint_probability PROBS test_people {["Harry"]} {["James"]}
         {["James"]} = Some p ∧ 0 < p ∧ p ≤ 1.
Proof.
  apply joint_probability_bounds.
  - exact PROBS_positive.
  - exact PROBS_ok.
  - apply (bool_decide_unpack _). vm_compute. exact I.
Defined.

(** ** The accumulated table *)

Lemma update_entry_get_gene o t h p person e c :
  get_gene c (update_entry o t h p person e)
  = get_gene c e + (if decide (hyp_gene o t person = c) then p else 0).
Proof.
  rewrite update_entry_hyp. cbn zeta. destruct e as [[g2 g1 g0] [tt tf]].
  destruct (hyp_gene o t person), c, (hyp_trait h person);
    unfold set_gene, set_trait, get_gene, get_trait; cbn;
    case_decide; try congruence; ring.
Qed.

Lemma update_entry_get_trait o t h p person e b :
  get_trait b (update_entry o t h p person e)
  = get_trait b e + (if decide (hyp_trait h person = b) then p else 0).
Proof.
  rewrite update_entry_hyp. cbn zeta. destruct e as [[g2 g1 g0] [tt tf]].
  destruct (hyp_gene o t person), b, (hyp_trait h person);
    unfold set_gene, set_trait, get_gene, get_trait; cbn;
    case_decide; try congruence; ring.
Qed.

(** The entry of a person after the calls of [update] for the hypotheses
    [hs], each with the probability [w h]. *)
Lemma accumulated_entry (w : hypothesis → Qc) person hs e :
  let e' := foldl (λ e '(h, p),
                     update_entry (hyp_one_gene h) (hyp_two_genes h)
                       (hyp_have_trait h) p person e)
                  e ((λ h, (h, w h)) <$> hs) in
  (∀ c, get_gene c e'
        = get_gene c e
          + sum_over hs (λ h,
              if decide (hyp_gene (hyp_one_gene h) (hyp_two_genes h)
                           person = c) then w h else 0)) ∧
  (∀ b, get_trait b e'
        = get_trait b e
          + sum_over hs (λ h,
              if decide (hyp_trait (hyp_have_trait h) person = b)
              then w h else 0)) ∧
  gene_total e' = gene_total e + sum_over hs w ∧
  trait_total e' = trait_total e + sum_over hs w.
Proof.
  revert e. induction hs as [|h hs IH]; intros e; cbn zeta.
  - cbn [fmap list_fmap foldl].
    repeat split; intros; rewrite sum_over_nil; ring.
  - cbn [fmap list_fmap foldl]. destruct (IH
      (update_entry (hyp_one_gene h) (hyp_two_genes h) (hyp_have_trait h)
         (w h) person e)) as (Hg & Ht & Hgt & Htt).
    cbn zeta in Hg, Ht, Hgt, Htt.
    repeat split.
    + intros c. rewrite Hg, update_entry_get_gene, sum_over_cons. ring.
    + intros b. rewrite Ht, update_entry_get_trait, sum_over_cons. ring.
    + rewrite Hgt, update_entry_gene_total, sum_over_cons. ring.
    + rewrite Htt, update_entry_trait_total, sum_over_cons. ring.
Qed.

(** X12. On a well-formed pedigree the enumeration loops of [main] end with a
    table over the people of the pedigree in which each bucket holds the
    sum of the joint probabilities of the enumerated hypotheses that give
    the person that gene count, or that trait value. *)
Theorem accumulate_computes_marginals (model : probs)
    (people : gmap string person_record) :
  well_formed people →
  ∃ hs table,
    enumerate people = Some hs ∧
    accumulate model people = Some table ∧
    dom table = dom people ∧
    ∀ person e, table !! person = Some e →
      (∀ c, get_gene c e = gene_mass model people hs person c) ∧
      (∀ t, get_trait t e = trait_mass model people hs person t).
Proof.
  intros Hwf. eexists _, _.
  split; [apply enumerate_surviving|].
  split; [by apply accumulate_updates|]. split.
  - apply set_eq. intros k. rewrite !elem_of_dom, updates_lookup.
    unfold initial. by rewrite fmap_is_Some, lookup_fmap, fmap_is_Some.
  - intros person e. rewrite updates_lookup. unfold initial.
    rewrite lookup_fmap. destruct (people !! person) as [rec|]; [|done].
    cbn. intros [= <-].
    destruct (accumulated_entry (hyp_joint model people) person
                (surviving people ≫= gene_hypotheses (dom people))
                zero_entry) as (Hg & Ht & _).
    cbn zeta in Hg, Ht. unfold gene_mass, trait_mass. split.
    + intros c. rewrite Hg. destruct c; cbn; ring.
    + intros t. rewrite Ht. destruct t; cbn; ring.
Qed.

Lemma accumulate_computes_marginals_witness :
  ∃ hs table,
    enumerate test_people = Some hs ∧
    accumulate PROBS test_people = Some table ∧
    dom table = dom test_people.
Proof.
  destruct (accumulate_computes_marginals PROBS test_people)
    as (hs & table & He & Ha & Hd & _).
  - apply (bool_decide_unpack _). vm_compute. exact I.
  - exists hs, table. split; [exact He|]. split; [exact Ha|exact Hd].
Defined.

Lemma sum_over_pos {A} (w : A → Qc) l :
  l ≠ [] → (∀ x, x ∈ l → 0 < w x) → 0 < sum_over l w.
Proof.
  intros Hne Hpos. destruct l as [|x l]; [done|]. clear Hne.
  rewrite sum_over_cons. apply Qcplus_pos_nonneg.
  - apply Hpos. by apply elem_of_cons; left.
  - assert (∀ y, y ∈ l → 0 < w y) as Hl
      by (intros y Hy; apply Hpos; by apply elem_of_cons; right).
    clear Hpos. induction l as [|y l IH]; [done|].
    rewrite sum_over_cons. apply Qclt_le_weak, Qcplus_pos_nonneg.
    + apply Hl. by apply elem_of_cons; left.
    + apply IH. intros z Hz. apply Hl. by apply elem_of_cons; right.
Qed.

(** X13. Over exact rationals: with a table of strictly positive
    probabilities whose distributions sum to 1, [main] gives, for every
    well-formed pedigree and whatever the observed traits, a table over
    the people of the pedigree in which every gene distribution and every
    trait distribution sums to 1. *)
Theorem posterior_distributions_sum_to_one (model : probs)
    (people : gmap string person_record) :
  model_positive model → model_ok model → well_formed people →
  ∃ table,
    posterior model people = Some table ∧
    dom table = dom people ∧
    ∀ person e, table !! person = Some e →
      gene_total e = 1 ∧ trait_total e = 1.
Proof.
  intros Hpos Hok Hwf. unfold posterior.
  rewrite accumulate_updates, mbind_Some by done. eexists.
  split; [reflexivity|]. split.
  - apply set_eq. intros k.
    rewrite !elem_of_dom, normalize_lookup, updates_lookup.
    unfold initial.
    by rewrite !fmap_is_Some, lookup_fmap, fmap_is_Some.
  - intros person e. rewrite normalize_lookup, updates_lookup.
    unfold initial. rewrite lookup_fmap.
    destruct (people !! person) as [rec|]; [|done].
    cbn [fmap option_fmap option_map]. intros [= <-].
    destruct (accumulated_entry (hyp_joint model people) person
                (surviving people ≫= gene_hypotheses (dom people))
                zero_entry) as (_ & _ & Hgt & Htt).
    cbn zeta in Hgt, Htt.
    fold (hyp_joint model people) in *.
    set (e0 := foldl _ zero_entry _) in *.
    assert (0 < sum_over (surviving people ≫= gene_hypotheses (dom people))
                  (hyp_joint model people)) as Hmass.
    { apply sum_over_pos; [apply enumerated_nonempty|].
      intros h _. by apply joint_is_probability. }
    assert (gene_total e0 ≠ 0) as Hg.
    { rewrite Hgt. cbn. rewrite Qcplus_0_l.
      apply not_eq_sym, Qclt_not_eq, Hmass. }
    assert (trait_total e0 = gene_total e0) as Heq.
    { rewrite Hgt, Htt. reflexivity. }
    split; [by apply normalize_entry_gene_total|].
    rewrite trait_total_unfold, !normalize_entry_trait.
    rewrite !decide_False by (by rewrite ?Heq).
    rewrite <- Heq, trait_total_unfold in *. by field.
Qed.

Lemma posterior_distributions_sum_to_one_witness :
  ∃ table,
    posterior PROBS test_people = Some table ∧
    dom table = dom test_people ∧
    ∀ person e, table !! person = Some e →
      gene_total e = 1 ∧ trait_total e = 1.
Proof.
  apply posterior_distributions_sum_to_one.
  - exact PROBS_positive.
  - exact PROBS_ok.
  - apply (bool_decide_unpack _). vm_compute. exact I.
Defined.

(** ** The size of the enumeration *)

Lemma length_bind {A B} (f : A → list B) l :
  length (l ≫= f) = sum_list_with (λ x, length (f x)) l.
Proof.
  induction l as [|x l IH]; [done|].
  rewrite bind_cons, length_app, IH. reflexivity.
Qed.

Lemma sum_list_with_ext_in {A} (f g : A → nat) l :
  (∀ x, x ∈ l → f x = g x) → sum_list_with f l = sum_list_with g l.
Proof.
  induction l as [|x l IH]; intros Hfg; [done|]. cbn.
  rewrite Hfg by (by apply elem_of_cons; left).
  rewrite IH; [done|]. intros y Hy. apply Hfg. by apply elem_of_cons; right.
Qed.

Lemma sum_list_with_fmap_list {A B} (g : A → B) (f : B → nat) l :
  sum_list_with f (g <$> l) = sum_list_with (f ∘ g) l.
Proof. induction l as [|x l IH]; [done|]. cbn. by rewrite IH. Qed.

Lemma sum_list_with_mult {A} (f : A → nat) (n : nat) l :
  sum_list_with (λ x, n * f x)%nat l = (n * sum_list_with f l)%nat.
Proof. induction l as [|x l IH]; cbn; [lia|]. rewrite IH. lia. Qed.

Lemma sum_list_with_plus {A} (f g : A → nat) l :
  sum_list_with (λ x, f x + g x)%nat l
  = (sum_list_with f l + sum_list_with g l)%nat.
Proof. induction l as [|x l IH]; cbn; [lia|]. rewrite IH. lia. Qed.

Lemma sum_list_with_const {A} (n : nat) (l : list A) :
  sum_list_with (λ _, n) l = (length l * n)%nat.
Proof. induction l as [|x l IH]; [done|]. cbn in *. rewrite IH. lia. Qed.

Lemma powerset_length s : length (powerset s) = (2 ^ size s)%nat.
Proof. rewrite powerset_powerset_list. apply powerset_list_length. Qed.

(** The pairs of a subset and a subset of the rest: three choices for
    every name. *)
Lemma gene_pairs_count (names : gset string) :
  sum_list_with (λ one_gene, 2 ^ size (names ∖ one_gene))%nat
    (powerset names)
  = (3 ^ size names)%nat.
Proof.
  induction names as [|x names Hx IH] using set_ind_L.
  - rewrite powerset_empty. cbn.
    by rewrite difference_diag_L, size_empty.
  - rewrite (sum_list_with_Permutation_proper _ _ _ (powerset_insert x names Hx)).
    rewrite sum_list_with_app, sum_list_with_fmap_list.
    rewrite (sum_list_with_ext_in _
               (λ one_gene, 2 ^ size (names ∖ one_gene))%nat).
    2:{ intros G HG%elem_of_powerset. cbn. do 2 f_equal. set_solver. }
    rewrite (sum_list_with_ext_in
               (λ one_gene, 2 ^ size (({[x]} ∪ names) ∖ one_gene))%nat
               (λ one_gene, 2 * 2 ^ size (names ∖ one_gene))%nat).
    2:{ intros G HG%elem_of_powerset.
        replace (({[x]} ∪ names) ∖ G) with ({[x]} ∪ names ∖ G)
          by set_solver.
        rewrite size_union, size_singleton by set_solver. reflexivity. }
    rewrite sum_list_with_mult, IH.
    rewrite size_union, size_singleton by set_solver. cbn. lia.
Qed.

Lemma gene_hypotheses_length names have_trait :
  length (gene_hypotheses names have_trait) = (3 ^ size names)%nat.
Proof.
  unfold gene_hypotheses. rewrite length_bind.
  rewrite <- gene_pairs_count. apply sum_list_with_ext_in.
  intros G _. rewrite length_bind, <- powerset_length.
  rewrite (sum_list_with_const 1). lia.
Qed.

Lemma powerset_NoDup s : NoDup (powerset s).
Proof.
  rewrite powerset_powerset_list. apply powerset_list_NoDup, NoDup_elements.
Qed.

Lemma gene_hypotheses_NoDup names have_trait :
  NoDup (gene_hypotheses names have_trait).
Proof.
  unfold gene_hypotheses. apply NoDup_bind; [| |apply powerset_NoDup].
  - intros G1 G1' h _ _ (G2 & ->%list_elem_of_singleton & _)%list_elem_of_bind
      (G2' & [= -> _]%list_elem_of_singleton & _)%list_elem_of_bind. done.
  - intros G1 _. apply NoDup_bind; [| |apply powerset_NoDup].
    + intros G2 G2' h _ _ ->%list_elem_of_singleton
        [= ->]%list_elem_of_singleton. done.
    + intros G2 _. apply NoDup_singleton.
Qed.

(** X14. On a well-formed pedigree the loops of [main], in either
    arithmetic, evaluate and accumulate the hypotheses of a list [hs] one
    after the other, every evaluation returning; [hs] has no duplicates,
    and its length, the number of calls of the evaluator, is the number
    of trait sets that agree with the evidence times [3^n] for [n]
    people: [6^n] calls when no trait is observed. *)
Theorem enumeration_size (model : probs)
    (people : gmap string person_record) :
  well_formed people →
  ∃ hs,
    enumerate people = Some hs ∧
    accumulate model people
    = for_each (evaluate_and_update model people) (initial people) hs ∧
    Binary64.accumulate people
    = for_each (Binary64.evaluate_and_update people)
        (Binary64.initial people) hs ∧
    (∀ h, h ∈ hs →
       is_Some (joint_probability model people (hyp_one_gene h)
                  (hyp_two_genes h) (hyp_have_trait h)) ∧
       is_Some (Binary64.joint_probability people (hyp_one_gene h)
                  (hyp_two_genes h) (hyp_have_trait h))) ∧
    NoDup hs ∧
    length hs = (length (surviving people) * 3 ^ size (dom people))%nat ∧
    (no_evidence people → length hs = (6 ^ size (dom people))%nat).
Proof.
  intros Hwf. eexists. split; [apply enumerate_surviving|].
  split; [apply accumulate_enumerate|].
  split; [apply binary64_accumulate_enumerate|].
  split.
  { intros h _. split.
    - by rewrite joint_probability_well_formed.
    - by apply binary64_joint_probability_well_formed. }
  assert (length (surviving people ≫= gene_hypotheses (dom people))
          = (length (surviving people) * 3 ^ size (dom people))%nat) as Hlen.
  { rewrite length_bind.
    rewrite (sum_list_with_ext_in _ (λ _, 3 ^ size (dom people))%nat)
      by (intros; apply gene_hypotheses_length).
    apply sum_list_with_const. }
  split; [|split; [exact Hlen|]].
  - apply NoDup_bind.
    + intros T T' h _ _ (_ & _ & <-)%elem_of_gene_hypotheses
        (_ & _ & <-)%elem_of_gene_hypotheses. done.
    + intros T _. apply gene_hypotheses_NoDup.
    + apply list.NoDup_filter, powerset_NoDup.
  - intros Hno. rewrite Hlen, surviving_no_evidence, powerset_length by done.
    by rewrite (Nat.pow_mul_l 2 3).
Qed.

Example enumeration_size_test_people :
  length <$> enumerate test_people = Some 54%nat.
Proof. vm_compute. reflexivity. Qed.

Lemma enumeration_size_witness :
  ∃ hs, enumerate test_people = Some hs ∧
    accumulate PROBS test_people
    = for_each (evaluate_and_update PROBS test_people)
        (initial test_people) hs ∧
    NoDup hs ∧ length hs = 54%nat.
Proof.
  destruct (enumeration_size PROBS test_people)
    as (hs & He & Ha & _ & _ & Hnd & Hlen & _).
  { apply (bool_decide_unpack _). vm_compute. exact I. }
  exists hs. split; [exact He|]. split; [exact Ha|]. split; [exact Hnd|].
  rewrite Hlen. vm_compute. reflexivity.
Defined.

(** ** The posterior of an individual without parents *)

Lemma same_off_hyp x G1 G2 T G1' G2' T' k :
  same_off x G1 G2 T G1' G2' T' → k ≠ x →
  hyp_gene G1' G2' k = hyp_gene G1 G2 k ∧ hyp_trait T' k = hyp_trait T k.
Proof.
  intros Hsame Hk. destruct (Hsame k Hk) as (H1 & H2 & H3).
  unfold hyp_gene, hyp_trait. split.
  - by rewrite (decide_ext _ _ _ _ H1), (decide_ext _ _ _ _ H2).
  - by apply bool_decide_ext.
Qed.

Lemma joint_insert_same_off model people x rec G1 G2 T G1' G2' T' :
  well_formed people → people !! x = None →
  same_off x G1 G2 T G1' G2' T' →
  joint model (<[x := rec]> people) (hyp_gene G1' G2') (hyp_trait T')
  = factor model (hyp_gene G1' G2') (hyp_trait T') x rec
    * joint model people (hyp_gene G1 G2) (hyp_trait T).
Proof.
  intros Hwf Hfresh Hsame. rewrite joint_insert by done. f_equal.
  apply joint_ext; [done|]. intros k Hk. eapply same_off_hyp; [done|].
  intros ->. by apply not_elem_of_dom in Hfresh.
Qed.

Lemma root_factor model c t person rec :
  is_root rec →
  factor model c t person rec
  = genePrior model (c person) * traitGivenGene model (c person) (t person).
Proof. intros [Hm Hf]. unfold factor. by rewrite Hm, Hf. Qed.

Lemma sum_over_scale {A} (k : Qc) (f : A → Qc) l :
  sum_over l (λ x, k * f x) = k * sum_over l f.
Proof.
  induction l as [|x l IH].
  - rewrite !sum_over_nil. ring.
  - rewrite !sum_over_cons, IH. ring.
Qed.

Lemma gene_sum_scale names (k : Qc) f :
  gene_sum names (λ G1 G2, k * f G1 G2) = k * gene_sum names f.
Proof.
  unfold gene_sum. rewrite <- sum_over_scale.
  apply sum_over_ext. intros G1 _. apply sum_over_scale.
Qed.

(** Without evidence, the mass of the hypotheses that give an individual
    without parents the count [c] is the prior of [c]. *)
Lemma root_gene_mass model people person rec c :
  model_ok model → pedigree_ok people →
  people !! person = Some rec → is_root rec →
  sum_over (powerset (dom people)) (λ T,
    gene_sum (dom people) (λ G1 G2,
      if decide (hyp_gene G1 G2 person = c)
      then joint model people (hyp_gene G1 G2) (hyp_trait T) else 0))
  = genePrior model c.
Proof.
  intros Hmodel Hok. revert person rec.
  induction Hok as [|people x r Hok IH Hfresh Hr]; intros person rec Hrec Hroot.
  - by rewrite lookup_empty in Hrec.
  - pose proof (pedigree_ok_well_formed _ Hok) as Hwf.
    assert (x ∉ dom people) as Hx by (by apply not_elem_of_dom).
    rewrite dom_insert_L, sum_over_powerset_insert by done.
    assert (∀ G1 G2 T : gset string,
      T ⊆ dom people → G1 ⊆ dom people → G2 ⊆ dom people ∖ G1 →
      same_off x G1 G2 T G1 G2 T ∧
      same_off x G1 G2 T G1 ({[x]} ∪ G2) T ∧
      same_off x G1 G2 T ({[x]} ∪ G1) G2 T ∧
      same_off x G1 G2 T G1 G2 ({[x]} ∪ T) ∧
      same_off x G1 G2 T G1 ({[x]} ∪ G2) ({[x]} ∪ T) ∧
      same_off x G1 G2 T ({[x]} ∪ G1) G2 ({[x]} ∪ T) ∧
      hyp_gene G1 G2 x = C0 ∧ hyp_gene G1 ({[x]} ∪ G2) x = C2 ∧
      hyp_gene ({[x]} ∪ G1) G2 x = C1 ∧
      hyp_trait T x = false ∧ hyp_trait ({[x]} ∪ T) x = true) as Hvar.
    { intros G1 G2 T HT H1 H2.
      assert ((x ∉ G1) ∧ (x ∉ G2) ∧ (x ∉ T)) as (Hx1 & Hx2 & Hx3)
        by set_solver.
      assert (x ∈ ({[x]} ∪ G1) ∧ x ∈ ({[x]} ∪ G2) ∧ x ∈ ({[x]} ∪ T))
        as (Hi1 & Hi2 & Hi3) by set_solver.
      do 6 (split; [intros k Hk; set_solver|]).
      unfold hyp_gene, hyp_trait.
      split; [by rewrite !decide_False|].
      split; [by rewrite decide_False, decide_True|].
      split; [by rewrite decide_True|].
      split; [by apply bool_decide_eq_false|by apply bool_decide_eq_true]. }
    destruct (decide (person = x)) as [->|Hne].
    + rewrite lookup_insert_eq in Hrec. injection Hrec as ->.
      rewrite <- (Qcmult_1_r (genePrior model c)).
      rewrite <- (enumeration_total model people Hmodel Hok).
      rewrite <- sum_over_scale.
      apply sum_over_ext. intros T HT%elem_of_powerset.
      rewrite !gene_sum_insert, <- gene_sum_plus, <- gene_sum_scale by done.
      apply gene_sum_ext. intros G1 G2 H1 H2.
      destruct (Hvar G1 G2 T HT H1 H2)
        as (S1 & S2 & S3 & S4 & S5 & S6 & E0 & E2 & E1 & F0 & F1).
      rewrite (joint_insert_same_off _ _ _ _ _ _ _ _ _ _ Hwf Hfresh S1),
        (joint_insert_same_off _ _ _ _ _ _ _ _ _ _ Hwf Hfresh S2),
        (joint_insert_same_off _ _ _ _ _ _ _ _ _ _ Hwf Hfresh S3),
        (joint_insert_same_off _ _ _ _ _ _ _ _ _ _ Hwf Hfresh S4),
        (joint_insert_same_off _ _ _ _ _ _ _ _ _ _ Hwf Hfresh S5),
        (joint_insert_same_off _ _ _ _ _ _ _ _ _ _ Hwf Hfresh S6).
      rewrite !root_factor by done. rewrite E0, E1, E2, F0, F1.
      set (w := joint model people (hyp_gene G1 G2) (hyp_trait T)).
      assert (∀ c', genePrior model c' * w
                    = genePrior model c'
                      * (traitGivenGene model c' true
                         + traitGivenGene model c' false) * w) as Hone
        by (intros c'; rewrite (proj2 Hmodel c'); ring).
      rewrite Hone. clear Hone.
      destruct c; repeat case_decide; try congruence; ring.
    + rewrite lookup_insert_ne in Hrec by done.
      rewrite <- (IH person rec Hrec Hroot).
      apply sum_over_ext. intros T HT%elem_of_powerset.
      rewrite !gene_sum_insert, <- gene_sum_plus by done.
      apply gene_sum_ext. intros G1 G2 H1 H2.
      destruct (Hvar G1 G2 T HT H1 H2)
        as (S1 & S2 & S3 & S4 & S5 & S6 & E0 & E2 & E1 & F0 & F1).
      rewrite (joint_insert_same_off _ _ _ _ _ _ _ _ _ _ Hwf Hfresh S1),
        (joint_insert_same_off _ _ _ _ _ _ _ _ _ _ Hwf Hfresh S2),
        (joint_insert_same_off _ _ _ _ _ _ _ _ _ _ Hwf Hfresh S3),
        (joint_insert_same_off _ _ _ _ _ _ _ _ _ _ Hwf Hfresh S4),
        (joint_insert_same_off _ _ _ _ _ _ _ _ _ _ Hwf Hfresh S5),
        (joint_insert_same_off _ _ _ _ _ _ _ _ _ _ Hwf Hfresh S6).
      rewrite (proj1 (same_off_hyp _ _ _ _ _ _ _ person S2 Hne)),
        (proj1 (same_off_hyp _ _ _ _ _ _ _ person S3 Hne)).
      destruct (decide (hyp_gene G1 G2 person = c)) as [Hc|Hc]; [|ring].
      apply (factor_total model x r (dom people)); try done.
      * intros k Hk. assert (k ≠ x) as Hkx by (by intros ->).
        split; [apply (same_off_hyp _ _ _ _ _ _ _ k S3 Hkx)
               |apply (same_off_hyp _ _ _ _ _ _ _ k S2 Hkx)].
Qed.

Lemma sum_over_enumerated (l : list (gset string)) names
    (f : hypothesis → Qc) :
  sum_over (l ≫= gene_hypotheses names) f
  = sum_over l (λ T,
      gene_sum names (λ G1 G2,
        f {| hyp_one_gene := G1; hyp_two_genes := G2;
             hyp_have_trait := T |})).
Proof.
  rewrite sum_over_bind. apply sum_over_ext. intros T _.
  unfold gene_hypotheses, gene_sum. rewrite sum_over_bind.
  apply sum_over_ext. intros G1 _. rewrite sum_over_bind.
  apply sum_over_ext. intros G2 _. by rewrite sum_over_singleton.
Qed.

(** X15. Over exact rationals: when no trait is observed in a pedigree
    without cycles and without dangling references, [main] gives every
    individual without recorded parents the gene prior of the table as
    its gene distribution, whatever the rest of the pedigree. *)
Theorem root_posterior_is_prior (model : probs)
    (people : gmap string person_record) (person : string)
    (rec : person_record) :
  model_ok model → pedigree_ok people → no_evidence people →
  people !! person = Some rec → is_root rec →
  ∃ table e,
    posterior model people = Some table ∧ table !! person = Some e ∧
    ∀ c, get_gene c e = probs_gene model c.
Proof.
  intros Hmodel Hok Hno Hrec Hroot.
  pose proof (pedigree_ok_well_formed _ Hok) as Hwf.
  unfold posterior. rewrite accumulate_updates, mbind_Some by done.
  eexists _, _. split; [reflexivity|].
  rewrite normalize_lookup, updates_lookup. unfold initial.
  rewrite lookup_fmap, Hrec. cbn [fmap option_fmap option_map].
  split; [reflexivity|]. intros c.
  destruct (accumulated_entry (hyp_joint model people) person
              (surviving people ≫= gene_hypotheses (dom people))
              zero_entry) as (Hg & _ & Hgt & _).
  cbn zeta in Hg, Hgt. fold (hyp_joint model people) in *.
  set (e0 := foldl _ zero_entry _) in *.
  rewrite surviving_no_evidence in Hg, Hgt by done.
  rewrite sum_over_enumerated in Hgt. unfold hyp_joint in Hgt.
  cbn [hyp_one_gene hyp_two_genes hyp_have_trait] in Hgt.
  rewrite (enumeration_total model people Hmodel Hok) in Hgt.
  specialize (Hg c). rewrite sum_over_enumerated in Hg.
  unfold hyp_joint in Hg.
  cbn [hyp_one_gene hyp_two_genes hyp_have_trait] in Hg.
  rewrite (root_gene_mass model people person rec c Hmodel Hok Hrec Hroot)
    in Hg.
  assert (gene_total e0 = 1) as Htot by (rewrite Hgt; cbn; ring).
  rewrite normalize_entry_gene, Htot, Hg
    by (rewrite Htot; by apply (bool_decide_unpack _)).
  unfold genePrior. destruct c; cbn; by field.
Qed.

Lemma root_posterior_is_prior_witness :
  let root t := {| person_name := t; person_mother := None;
                   person_father := None; person_trait := None |} in
  let child := {| person_name := "Harry"; person_mother := Some "Lily";
                  person_father := Some "James"; person_trait := None |} in
  ∃ table e,
    posterior PROBS
      (<["Harry" := child]> (<["James" := root "James"]>
         {["Lily" := root "Lily"]})) = Some table ∧
    table !! "James" = Some e ∧
    ∀ c, get_gene c e = probs_gene PROBS c.
Proof.
  intros root child.
  apply (root_posterior_is_prior PROBS _ "James" (root "James")).
  - exact PROBS_ok.
  - apply pedigree_insert; [apply pedigree_insert|..].
    + rewrite <- insert_empty. apply pedigree_insert;
        [constructor|apply lookup_empty|left; split; reflexivity].
    + reflexivity.
    + left; split; reflexivity.
    + reflexivity.
    + right. apply (bool_decide_unpack _). vm_compute. exact I.
  - apply (bool_decide_unpack _). vm_compute. exact I.
  - reflexivity.
  - split; reflexivity.
Defined.

(** * The program in binary64 *)


Lemma binary64_update_dom probabilities one_gene two_genes have_trait p :
  dom (Binary64.update probabilities one_gene two_genes have_trait p)
  = dom probabilities.
Proof.
  apply set_eq. intros k.
  by rewrite !elem_of_dom, binary64_update_lookup, fmap_is_Some.
Qed.




(** X17. In binary64, one call of [update] adds [p], with one rounded
    addition, to exactly one gene bucket and exactly one trait bucket of
    every person of the table (the buckets that the hypothesis gives the
    person), leaves the other buckets as they are, and neither adds nor
    removes a person. *)
Theorem binary64_update_adds_to_one_bucket
    (probabilities : gmap string Binary64.entry)
    (one_gene two_genes have_trait : gset string) (p : float)
    (person : string) (e : Binary64.entry) :
  probabilities !! person = Some e →
  let updated :=
    Binary64.update probabilities one_gene two_genes have_trait p in
  dom updated = dom probabilities ∧
  ∃ e', updated !! person = Some e' ∧
    (∀ c, Binary64.get_gene c e'
          = if decide (c = hyp_gene one_gene two_genes person)
            then (Binary64.get_gene c e + p)%float
            else Binary64.get_gene c e) ∧
    (∀ t, Binary64.get_trait t e'
          = if decide (t = hyp_trait have_trait person)
            then (Binary64.get_trait t e + p)%float
            else Binary64.get_trait t e).
Proof.
  intros He. cbn zeta. split; [apply binary64_update_dom|].
  eexists. rewrite binary64_update_lookup, He.
  split; [reflexivity|]. rewrite binary64_update_entry_hyp. cbn zeta.
  split.
  - intros c. by destruct c, (hyp_gene one_gene two_genes person),
      (hyp_trait have_trait person).
  - intros t. by destruct t, (hyp_gene one_gene two_genes person),
      (hyp_trait have_trait person).
Qed.

Lemma binary64_update_adds_to_one_bucket_witness :
  let e := {| Binary64.entry_gene :=
                {| Binary64.gene_2 := 0; Binary64.gene_1 := 0.1;
                   Binary64.gene_0 := 0 |};
              Binary64.entry_trait :=
                {| Binary64.trait_True := 0;
                   Binary64.trait_False := 0.1 |} |}%float in
  ∃ e', Binary64.update {[ "A" := e ]} {["A"]} ∅ ∅ 0.2 !! "A" = Some e' ∧
    Binary64.get_gene C1 e' = 0.30000000000000004%float ∧
    Binary64.get_gene C0 e' = 0%float ∧
    Binary64.get_trait false e' = 0.30000000000000004%float.
Proof.
  intros e.
  destruct (binary64_update_adds_to_one_bucket {[ "A" := e ]} {["A"]} ∅ ∅
              0.2%float "A" e) as (_ & e' & He' & Hg & Ht); [reflexivity|].
  exists e'. split; [exact He'|]. rewrite !Hg, Ht.
  split; [|split]; vm_compute; reflexivity.
Defined.

(** X18. In binary64, [normalize] keeps the people of the table and, for
    each of them: leaves the entry as it is when the gene buckets sum to
    zero; otherwise divides each gene bucket by the sum of the gene
    buckets and, unless the trait buckets sum to zero, divides each trait
    bucket by the sum of the gene buckets as well. *)
Theorem binary64_normalize_divides_by_gene_total
    (probabilities : gmap string Binary64.entry) (person : string)
    (e : Binary64.entry) :
  probabilities !! person = Some e →
  dom (Binary64.normalize probabilities) = dom probabilities ∧
  ∃ e', Binary64.normalize probabilities !! person = Some e' ∧
    let gene_sum := Binary64.gene_total e in
    let trait_sum := Binary64.trait_total e in
    ((gene_sum =? 0)%float = true → e' = e) ∧
    ((gene_sum =? 0)%float = false →
     (∀ c, Binary64.get_gene c e' = (Binary64.get_gene c e / gene_sum)%float)
     ∧ ((trait_sum =? 0)%float = true →
        ∀ t, Binary64.get_trait t e' = Binary64.get_trait t e)
     ∧ ((trait_sum =? 0)%float = false →
        ∀ t, Binary64.get_trait t e'
             = (Binary64.get_trait t e / gene_sum)%float)).
Proof.
  intros He. split.
  { apply set_eq. intros k.
    by rewrite !elem_of_dom, binary64_normalize_lookup, fmap_is_Some. }
  eexists. rewrite binary64_normalize_lookup, He.
  split; [reflexivity|]. cbn zeta. unfold Binary64.normalize_entry.
  destruct (Binary64.gene_total e =? 0)%float eqn:Hg.
  - split; [done|]. intros [=].
  - split; [intros [=]|]. intros _.
    change (Binary64.trait_total
              (Binary64.set_gene C0 _ (Binary64.set_gene C2 _
                 (Binary64.set_gene C1 _ e))))
      with (Binary64.trait_total e).
    destruct (Binary64.trait_total e =? 0)%float eqn:Ht.
    + split; [by intros []|]. split; [|intros [=]]. by intros _ [].
    + split; [by intros []|]. split; [intros [=]|]. by intros _ [].
Qed.

Lemma binary64_normalize_divides_by_gene_total_witness :
  let e := {| Binary64.entry_gene :=
                {| Binary64.gene_2 := 0.1; Binary64.gene_1 := 0.2;
                   Binary64.gene_0 := 0.3 |};
              Binary64.entry_trait :=
                {| Binary64.trait_True := 0.5;
                   Binary64.trait_False := 0.5 |} |}%float in
  ∃ e', Binary64.normalize {[ "A" := e ]} !! "A" = Some e' ∧
    Binary64.get_gene C2 e' = (0.1 / 0.6000000000000001)%float ∧
    Binary64.get_trait true e' = (0.5 / 0.6000000000000001)%float ∧
    Binary64.gene_total e' = 0.9999999999999999%float.
Proof.
  intros e.
  destruct (binary64_normalize_divides_by_gene_total {[ "A" := e ]} "A" e)
    as (_ & e' & He' & _ & H); [reflexivity|].
  destruct H as (Hg & _ & Ht); [vm_compute; reflexivity|].
  exists e'. split; [exact He'|]. rewrite Hg, Ht by (vm_compute; reflexivity).
  split; [vm_compute; reflexivity|]. split; [vm_compute; reflexivity|].
  assert (Binary64.normalize {["A" := e]} !! "A"
          = Some (Binary64.normalize_entry e)) as He2
    by (vm_compute; reflexivity).
  rewrite He2 in He'. injection He' as <-. vm_compute. reflexivity.
Defined.

(** ** Where binary64 leaves the exact values *)

(** The product of the evaluator underflows: with 131 individuals that
    all have two copies and no trait it is [1.877e-322], with 132 it is
    [0]. *)
Example joint_probability_underflows_in_binary64 :
  Binary64.joint_probability (crowd 131) ∅ (dom (crowd 131)) ∅
  = Some 1.8774494541967369e-322%float ∧
  Binary64.joint_probability (crowd 132) ∅ (dom (crowd 132)) ∅
  = Some 0%float.
Proof. split; vm_compute; reflexivity. Qed.

(** The trait distribution that [main] prints need not sum to 1: on the
    pedigree of lines 245-247, read from a file with the rows in that
    order, the trait buckets of James are [1.0000000000000002] and
    [0]. *)
Example trait_distribution_in_binary64 :
  let rows :=
    [ {| row_name := "Harry"; row_mother := "Lily"; row_father := "James";
         row_trait := "" |};
      {| row_name := "James"; row_mother := ""; row_father := "";
         row_trait := "1" |};
      {| row_name := "Lily"; row_mother := ""; row_father := "";
         row_trait := "0" |} ] in
  load_data rows = test_people ∧
  (table ← Binary64.main rows; e ← table !! "James";
   Some (Binary64.get_trait true e, Binary64.get_trait false e))
  = Some (1.0000000000000002, 0)%float.
Proof.
  intros rows. split; [|vm_compute; reflexivity].
  apply (bool_decide_unpack _). vm_compute. exact I.
Qed.
